(** * rv_node_graph: a verification development

    Shallow embedding of [src/package/rv_node_graph.py], the plugin that
    mirrors the node graph of the RV review application into a NodeGraphQt
    canvas.  The development follows the layout of the Python module:

    - Python values the module manipulates (strings, [None], insertion
      ordered dictionaries living in a shared object store);
    - the host query surface [rv.commands] as a record of functions;
    - [get_node_color], [_stripped_name], [get_rv_hierarchy];
    - the widget library NodeGraphQt as an interface record, with the
      module's calls into it logged as a sequence of effects;
    - [_build_graph], [expand_group_node], the event handlers, and the
      [createMode]/[theMode] accessors.

    Strings are [String.string]; a character is one [ascii], so the
    development covers node names and types written in one-byte
    characters. *)

From Stdlib Require Import ZArith String Ascii.
From stdpp Require Import base option list strings gmap.

Local Open Scope string_scope.
Local Open Scope list_scope.

(** ** Python strings *)

Module PyStr.

(** [needle in hay] *)
Fixpoint contains (needle hay : string) : bool :=
  if String.prefix needle hay then true
  else match hay with
       | EmptyString => false
       | String _ rest => contains needle rest
       end.

(** [s.startswith(p)] *)
Definition startswith (s p : string) : bool := String.prefix p s.

(** [s[k:]] for a non-negative [k]: past the end it is the empty string. *)
Fixpoint slice_from (k : nat) (s : string) : string :=
  match k, s with
  | O, _ => s
  | S _, EmptyString => EmptyString
  | S k', String _ rest => slice_from k' rest
  end.

(** [len(s)] *)
Definition len (s : string) : nat := String.length s.

(** Truthiness of a value that is [None] or a string. *)
Definition truthy (v : option string) : bool :=
  match v with
  | None => false
  | Some EmptyString => false
  | Some (String _ _) => true
  end.

End PyStr.

(** ** The host: [rv.commands]

    The module only reads from the host.  A session is what the four
    queries it uses answer. [nodeGroup] and [nodeType] answer a string or
    [None]. *)

Record HostSession : Type := mkHost {
  nodes : list string;
  nodeGroup : string -> option string;
  nodeType : string -> option string;
  nodeConnections : string -> list string * list string;
}.

(** ** [get_node_color] *)

Definition Color : Type := (Z * Z * Z)%type.

Definition get_node_color (node_type : option string) : Color :=
  if negb (PyStr.truthy node_type) then (100, 100, 100)%Z
  else
    let ty := default EmptyString node_type in
    if PyStr.contains "Source" ty then (80, 120, 80)%Z
    else if PyStr.contains "LUT" ty then (150, 120, 80)%Z
    else if PyStr.contains "Filter" ty then (120, 100, 80)%Z
    else if PyStr.contains "View" ty || PyStr.contains "Display" ty
         then (80, 80, 130)%Z
    else if PyStr.contains "Sequence" ty then (130, 80, 130)%Z
    else if PyStr.contains "Stack" ty then (80, 130, 130)%Z
    else if PyStr.contains "Layout" ty then (130, 130, 80)%Z
    else if PyStr.contains "Group" ty then (110, 110, 110)%Z
    else (100, 100, 100)%Z.

(** The classifier as the specification words it: a table of rules in
    priority order, each a set of keywords and a colour; the first rule one
    of whose keywords occurs in the type string decides, and the neutral
    default applies when none does. *)

Definition neutral_color : Color := (100, 100, 100)%Z.

Definition color_rules : list (list string * Color) :=
  [ (["Source"], (80, 120, 80)%Z);
    (["LUT"], (150, 120, 80)%Z);
    (["Filter"], (120, 100, 80)%Z);
    (["View"; "Display"], (80, 80, 130)%Z);
    (["Sequence"], (130, 80, 130)%Z);
    (["Stack"], (80, 130, 130)%Z);
    (["Layout"], (130, 130, 80)%Z);
    (["Group"], (110, 110, 110)%Z) ].

Definition rule_matches (ty : string) (r : list string * Color) : bool :=
  existsb (fun kw => PyStr.contains kw ty) (fst r).

Definition first_match_color (node_type : option string) : Color :=
  match node_type with
  | None => neutral_color
  | Some ty =>
      match List.find (rule_matches ty) color_rules with
      | Some r => snd r
      | None => neutral_color
      end
  end.

(** ** [_stripped_name] *)

Definition _stripped_name (host : HostSession) (node_name : string) : string :=
  let group := nodeGroup host node_name in
  if PyStr.truthy group
     && PyStr.startswith node_name (default EmptyString group)
  then PyStr.slice_from (PyStr.len (default EmptyString group) + 1) node_name
  else node_name.

(** ** Python objects: dictionaries in a shared store

    A Python dictionary is an object: a name bound to it, or a value stored
    under a key of another dictionary, is a reference.  The store holds the
    dictionaries created so far, addressed by position; a dictionary is its
    list of entries in insertion order, each value a reference. *)

Abbreviation loc := nat (only parsing).
Abbreviation pydict := (list (string * loc)) (only parsing).
Abbreviation store := (list pydict) (only parsing).

Inductive PyExc : Type :=
  | KeyError (key : string)
  | AttributeError (attribute : string).

Inductive Result (A : Type) : Type :=
  | Ok (a : A)
  | Raise (e : PyExc).
Arguments Ok {A} a.
Arguments Raise {A} e.

(** [d[k] = v] on the entries of one dictionary: an existing key keeps its
    place and takes the new value, a new key goes last. *)
Fixpoint dict_setitem (d : pydict) (k : string) (v : loc) : pydict :=
  match d with
  | [] => [(k, v)]
  | (k', v') :: d' =>
      if String.eqb k' k then (k', v) :: d'
      else (k', v') :: dict_setitem d' k v
  end.

(** [d[k]] *)
Fixpoint dict_getitem (d : pydict) (k : string) : option loc :=
  match d with
  | [] => None
  | (k', v') :: d' => if String.eqb k' k then Some v' else dict_getitem d' k
  end.

(** The expression [{}]: a new, empty dictionary. *)
Definition alloc_dict (objs : store) : loc * store :=
  (length objs, objs ++ [[]]).

(** [ref[k] = v] through a reference. *)
Definition store_setitem (objs : store) (ref : loc) (k : string) (v : loc)
  : store :=
  match objs !! ref with
  | Some d => <[ref := dict_setitem d k v]> objs
  | None => objs
  end.

(** [ref[k]] through a reference. *)
Definition store_getitem (objs : store) (ref : loc) (k : string)
  : Result loc :=
  match objs !! ref with
  | Some d =>
      match dict_getitem d k with
      | Some v => Ok v
      | None => Raise (KeyError k)
      end
  | None => Raise (KeyError k)
  end.

(** ** [get_rv_hierarchy] *)

(** The nested mapping the function returns, read off the store: a node
    name maps to the mapping of its children. *)
#[local] Unset Elimination Schemes.
Inductive HierarchyTree : Type :=
  | HT (entries : list (string * HierarchyTree)).
#[local] Set Elimination Schemes.

Definition entries (t : HierarchyTree) : list (string * HierarchyTree) :=
  match t with HT es => es end.

(** The local variables of the loop: the store, and [all_nodes_map], which
    is only ever indexed by key. *)
Record HierState : Type := mkHier {
  objs : store;
  all_nodes_map : gmap string loc;
}.

(** One iteration of [for node_name in rvc.nodes()]. *)
Definition hierarchy_step (host : HostSession) (root_nodes : loc)
    (st : HierState) (node_name : string) : Result HierState :=
  let group := nodeGroup host node_name in
  if negb (PyStr.truthy group) then
    let '(fresh, objs1) := alloc_dict (objs st) in
    let objs2 := store_setitem objs1 root_nodes node_name fresh in
    match store_getitem objs2 root_nodes node_name with
    | Ok child =>
        Ok (mkHier objs2 (<[node_name := child]> (all_nodes_map st)))
    | Raise e => Raise e
    end
  else
    let g := default EmptyString group in
    match all_nodes_map st !! g with
    | None => Raise (KeyError g)
    | Some parent_group =>
        let '(fresh, objs1) := alloc_dict (objs st) in
        let objs2 := store_setitem objs1 parent_group node_name fresh in
        match store_getitem objs2 parent_group node_name with
        | Ok child =>
            Ok (mkHier objs2 (<[node_name := child]> (all_nodes_map st)))
        | Raise e => Raise e
        end
    end.

Fixpoint hierarchy_loop (host : HostSession) (root_nodes : loc)
    (st : HierState) (names : list string) : Result HierState :=
  match names with
  | [] => Ok st
  | node_name :: rest =>
      match hierarchy_step host root_nodes st node_name with
      | Ok st' => hierarchy_loop host root_nodes st' rest
      | Raise e => Raise e
      end
  end.

(** The function up to its [return]: the store and the reference
    [root_nodes] into it. *)
Definition get_rv_hierarchy_store (host : HostSession)
  : Result (store * loc) :=
  let '(root_nodes, objs0) := alloc_dict [] in
  match hierarchy_loop host root_nodes (mkHier objs0 ∅) (nodes host) with
  | Ok st => Ok (objs st, root_nodes)
  | Raise e => Raise e
  end.

(** The value a reference denotes, followed to the given depth. *)
Fixpoint reify (depth : nat) (objs : store) (ref : loc) : HierarchyTree :=
  match depth with
  | O => HT []
  | S depth' =>
      HT (map (fun e => (fst e, reify depth' objs (snd e)))
              (default [] (objs !! ref)))
  end.

Definition get_rv_hierarchy (host : HostSession) : Result HierarchyTree :=
  match get_rv_hierarchy_store host with
  | Ok (objs, root_nodes) => Ok (reify (length objs) objs root_nodes)
  | Raise e => Raise e
  end.

(** *** Reading a hierarchy *)

(** How many entries of the whole nested mapping have a key that
    satisfies [p]; with [p] the test for one name, how many times that name
    appears. *)
Fixpoint count_keys (p : string -> bool) (t : HierarchyTree) : nat :=
  match t with
  | HT es =>
      list_sum (map (fun e => (if p (fst e) then 1 else 0)
                              + count_keys p (snd e)) es)
  end.

Definition occurrences (n : string) (t : HierarchyTree) : nat :=
  count_keys (fun k => String.eqb k n) t.

(** [n] is a key of the mapping itself. *)
Definition has_key (n : string) (t : HierarchyTree) : bool :=
  existsb (fun e => String.eqb (fst e) n) (entries t).

(** Somewhere in the mapping an entry with key [g] has [n] among the keys
    of its value. *)
Fixpoint is_child_of (g n : string) (t : HierarchyTree) : bool :=
  match t with
  | HT es =>
      existsb (fun e => (String.eqb (fst e) g && has_key n (snd e))
                        || is_child_of g n (snd e)) es
  end.

(** Two operations on a hierarchy, used to follow what an assignment
    through a reference does to the value read from the root: a new, empty
    entry at the end of a mapping, and a new, empty entry at the end of the
    value of every entry whose key satisfies [target]. *)
Definition root_append (n : string) (t : HierarchyTree) : HierarchyTree :=
  HT (entries t ++ [(n, HT [])]).

Fixpoint append_under (target : string -> bool) (n : string)
    (t : HierarchyTree) : HierarchyTree :=
  match t with
  | HT es =>
      HT (map (fun e =>
                 (fst e,
                  if target (fst e)
                  then root_append n (append_under target n (snd e))
                  else append_under target n (snd e))) es)
  end.

(** The ordering contract of [rvc.nodes()]: a node's parent group is listed
    before the node. [seen] are the names listed so far. *)
Fixpoint parents_first_from (host : HostSession) (seen names : list string)
  : bool :=
  match names with
  | [] => true
  | n :: rest =>
      (if PyStr.truthy (nodeGroup host n)
       then bool_decide (default EmptyString (nodeGroup host n) ∈ seen)
       else true)
      && parents_first_from host (seen ++ [n]) rest
  end.

Definition parents_first (host : HostSession) : Prop :=
  ∀ i n, nodes host !! i = Some n ->
         PyStr.truthy (nodeGroup host n) = true ->
         ∃ j, j < i ∧ nodes host !! j = nodeGroup host n.

(** A small session: two sources inside their groups, a sequence, a view. *)
Definition demo_host : HostSession :=
  mkHost
    ["sourceGroup000000"; "sourceGroup000000_source"; "sourceGroup000000_cache";
     "defaultSequence"; "defaultSequence_sequence"; "viewGroup"]
    (fun n =>
       if String.eqb n "sourceGroup000000_source" then Some "sourceGroup000000"
       else if String.eqb n "sourceGroup000000_cache" then Some "sourceGroup000000"
       else if String.eqb n "defaultSequence_sequence" then Some "defaultSequence"
       else None)
    (fun n =>
       if String.eqb n "sourceGroup000000" then Some "RVSourceGroup"
       else if String.eqb n "sourceGroup000000_source" then Some "RVFileSource"
       else if String.eqb n "sourceGroup000000_cache" then Some "RVCacheLUT"
       else if String.eqb n "defaultSequence" then Some "RVSequenceGroup"
       else if String.eqb n "defaultSequence_sequence" then Some "RVSequence"
       else if String.eqb n "viewGroup" then Some "RVViewGroup"
       else None)
    (fun n =>
       if String.eqb n "sourceGroup000000" then ([], ["defaultSequence"])
       else if String.eqb n "sourceGroup000000_source"
            then ([], ["sourceGroup000000_cache"])
       else if String.eqb n "sourceGroup000000_cache"
            then (["sourceGroup000000_source"], [])
       else if String.eqb n "defaultSequence"
            then (["sourceGroup000000"], ["viewGroup"])
       else if String.eqb n "defaultSequence_sequence"
            then (["sourceGroup000000"], ["viewGroup"])
       else if String.eqb n "viewGroup" then (["defaultSequence"], [])
       else ([], [])).

(** A session whose enumeration lists a node before its parent group. *)
Definition unordered_host : HostSession :=
  mkHost ["stack_t1"; "stack"]
         (fun n => if String.eqb n "stack_t1" then Some "stack" else None)
         (fun n => if String.eqb n "stack" then Some "RVStackGroup"
                   else Some "RVTransform2D")
         (fun _ => ([], [])).

(** An enumeration that lists the name of a group a second time, after
    one of its members. *)
Definition repeated_host : HostSession :=
  mkHost ["stack"; "stack_t1"; "stack"]
         (fun n => if String.eqb n "stack_t1" then Some "stack" else None)
         (fun n => if String.eqb n "stack" then Some "RVStackGroup"
                   else Some "RVTransform2D")
         (fun _ => ([], [])).

(** A session with one node, whose name starts with a blank. *)
Definition blank_host : HostSession :=
  mkHost [" lonely"] (fun _ => None) (fun _ => Some "RVColor")
         (fun _ => ([], [])).


(** ** The widget library: NodeGraphQt

    The module drives the library through handles.  A graph handle records
    whether the object is the top-level [NodeGraph] or a [SubGraph] (what
    [isinstance(graph, NodeGraphQt.SubGraph)] asks); a port is reached from
    its node as [node.input(i)] or [node.output(i)]. *)

Definition NodeRef : Type := nat.

Inductive GraphRef : Type :=
  | NodeGraph (id : nat)
  | SubGraph (id : nat).

Inductive PortRef : Type :=
  | InputPort (node : NodeRef) (index : nat)
  | OutputPort (node : NodeRef) (index : nat).

Definition isinstance_SubGraph (graph : GraphRef) : bool :=
  match graph with
  | NodeGraph _ => false
  | SubGraph _ => true
  end.

(** What the library answers and how its state moves, for a state [W] of
    the widgets.  Queries read [W]; commands return the next [W]. *)
Record NodeGraphQt (W : Type) : Type := mkLib {
  create_node : GraphRef -> string -> W -> NodeRef * W;
  set_color : NodeRef -> Color -> W -> W;
  set_name : NodeRef -> string -> W -> W;
  set_property : NodeRef -> string -> option string -> W -> W;
  get_property : NodeRef -> string -> W -> option string;
  get_node_by_name : GraphRef -> string -> W -> option NodeRef;
  get_input_port_nodes : GraphRef -> W -> list NodeRef;
  get_output_port_nodes : GraphRef -> W -> list NodeRef;
  connect_to : PortRef -> PortRef -> W -> W;
  isinstance_RVGroupNode : NodeRef -> W -> bool;
  is_expanded : NodeRef -> W -> bool;
  GroupNode_expand : NodeRef -> W -> GraphRef * W;
  collapse : NodeRef -> W -> W;
  node_name_of : NodeRef -> W -> string;
  node_type_of : NodeRef -> W -> string;
  node_graph_of : NodeRef -> W -> GraphRef;
  connect_signal : GraphRef -> string -> string -> W -> W;
  add_command : GraphRef -> string -> string -> string -> W -> W;
  auto_layout_nodes : GraphRef -> W -> W;
  fit_to_selection : GraphRef -> W -> W;
  clear_selection : GraphRef -> W -> W;
  clear_session : GraphRef -> W -> W;
}.
Arguments create_node {W}. Arguments set_color {W}. Arguments set_name {W}.
Arguments set_property {W}. Arguments get_property {W}.
Arguments get_node_by_name {W}. Arguments get_input_port_nodes {W}.
Arguments get_output_port_nodes {W}. Arguments connect_to {W}.
Arguments isinstance_RVGroupNode {W}. Arguments is_expanded {W}.
Arguments GroupNode_expand {W}. Arguments collapse {W}.
Arguments node_name_of {W}. Arguments node_type_of {W}.
Arguments node_graph_of {W}. Arguments connect_signal {W}.
Arguments add_command {W}. Arguments auto_layout_nodes {W}.
Arguments fit_to_selection {W}. Arguments clear_selection {W}.
Arguments clear_session {W}.

(** *** What the module does to the outside

    Every [print] and every command sent to the library is recorded, in
    order.  A message keeps the values the f-string interpolates. *)

Inductive Message : Type :=
  | MsgBuilding (nodes : HierarchyTree)
  | MsgAddingNode (node_name : string)
  | MsgConnections (node_name : string) (inputs outputs : list string)
  | MsgConnectingInputs (node_name : string) (inputs : list string)
  | MsgInputNotFound (input_node_name node_name : string)
  | MsgNoOutputs (node_name : string) (node_type : option string)
  | MsgExpanding (name : string)
  | MsgDoubleClicked (name type_ : string)
  | MsgCreatingMode.

Inductive Effect : Type :=
  | EPrint (m : Message)
  | ECreateNode (graph : GraphRef) (node_type : string) (node : NodeRef)
  | ESetColor (node : NodeRef) (c : Color)
  | ESetName (node : NodeRef) (name : string)
  | ESetProperty (node : NodeRef) (key : string) (value : option string)
  | EConnect (src dst : PortRef)
  | EExpand (node : NodeRef) (sub_graph : GraphRef)
  | ECollapse (node : NodeRef)
  | EConnectSignal (graph : GraphRef) (signal handler : string)
  | EAddCommand (graph : GraphRef) (menu name func : string)
  | EAutoLayout (graph : GraphRef)
  | EFitToSelection (graph : GraphRef)
  | EClearSelection (graph : GraphRef)
  | EClearSession (graph : GraphRef).

(** *** The monad of the module's code: widget state, effect log, and a
    result that is a value or a raised exception. *)

Section Monad.
Context {W : Type}.

Definition St : Type := (W * list Effect)%type.
Definition M (A : Type) : Type := St -> Result A * St.

Definition ret {A} (a : A) : M A := fun s => (Ok a, s).

Definition bind {A B} (m : M A) (k : A -> M B) : M B :=
  fun s =>
    match m s with
    | (Ok a, s') => k a s'
    | (Raise e, s') => (Raise e, s')
    end.

Definition raise {A} (e : PyExc) : M A := fun s => (Raise e, s).

Definition lift_result {A} (r : Result A) : M A := fun s => (r, s).

(** A query of the widget state. *)
Definition ask {A} (q : W -> A) : M A := fun s => (Ok (q (fst s)), s).

(** A command: the widget state moves and the effect is logged. *)
Definition tell (e : Effect) (f : W -> W) : M unit :=
  fun s => (Ok tt, (f (fst s), snd s ++ [e])).

(** A command with an answer. *)
Definition call {A} (f : W -> A * W) (e : A -> Effect) : M A :=
  fun s =>
    let '(a, w) := f (fst s) in (Ok a, (w, snd s ++ [e a])).

Definition print (m : Message) : M unit := tell (EPrint m) (fun w => w).

(** [for x in xs: body(x)] *)
Fixpoint for_each {A} (xs : list A) (body : A -> M unit) : M unit :=
  match xs with
  | [] => ret tt
  | x :: rest => bind (body x) (fun _ => for_each rest body)
  end.

End Monad.
Arguments St : clear implicits.
Arguments M : clear implicits.

Declare Scope py_scope.
Delimit Scope py_scope with py.
Notation "'let*' x ':=' m 'in' k" := (bind m (fun x => k))
  (at level 10, x name, m at level 100, k at level 200) : py_scope.
Notation "m ';;;' k" := (bind m (fun _ => k))
  (at level 100, k at level 200, right associativity) : py_scope.

(** ** The module's functions over the library *)

Section Plugin.
Context {W : Type} (lib : NodeGraphQt W) (host : HostSession).
Local Open Scope py_scope.

(** Truthiness of a dictionary and of a list. *)
Definition dict_truthy (t : HierarchyTree) : bool :=
  match entries t with [] => false | _ :: _ => true end.

Definition list_truthy {A} (l : list A) : bool :=
  match l with [] => false | _ :: _ => true end.

(** [a != b] on values that are a string or [None]. *)
Definition py_ne (a b : option string) : bool :=
  negb (bool_decide (a = b)).

(** *** [RVGroupNode.expand] *)
Definition RVGroupNode_expand (self : NodeRef) : M W GraphRef :=
  let* was_expanded := ask (is_expanded lib self) in
  let* sub_graph := call (GroupNode_expand lib self) (EExpand self) in
  (if negb was_expanded then
     tell (EConnectSignal sub_graph "node_selection_changed"
                          "_on_node_selection_changed")
          (connect_signal lib sub_graph "node_selection_changed"
                          "_on_node_selection_changed") ;;;
     tell (EConnectSignal sub_graph "node_double_clicked"
                          "_on_node_double_clicked")
          (connect_signal lib sub_graph "node_double_clicked"
                          "_on_node_double_clicked") ;;;
     tell (EAddCommand sub_graph "nodes" "Expand Group" "expand_group_node")
          (add_command lib sub_graph "nodes" "Expand Group"
                       "expand_group_node")
   else ret tt) ;;;
  ret sub_graph.

(** Attribute access on a node object: [expand], [collapse] and
    [is_expanded] exist on an [RVGroupNode] and not on an [RVNode]. *)
Definition group_attribute (node : NodeRef) (attribute : string)
  : M W unit :=
  let* is_group := ask (isinstance_RVGroupNode lib node) in
  if is_group then ret tt else raise (AttributeError attribute).

(** [node.expand()] *)
Definition node_expand (node : NodeRef) : M W GraphRef :=
  group_attribute node "expand" ;;; RVGroupNode_expand node.

(** [node.collapse()] *)
Definition node_collapse (node : NodeRef) : M W unit :=
  group_attribute node "collapse" ;;;
  tell (ECollapse node) (collapse lib node).

(** *** [expand_group_node] *)
Definition expand_group_node (graph : GraphRef) (node : NodeRef)
  : M W unit :=
  group_attribute node "is_expanded" ;;;
  let* expanded := ask (is_expanded lib node) in
  if negb expanded then
    node_expand node ;;;
    let* name := ask (node_name_of lib node) in
    print (MsgExpanding name)
  else ret tt.

(** *** [_on_node_double_clicked] *)
Definition _on_node_double_clicked (node : NodeRef) : M W unit :=
  let* name := ask (node_name_of lib node) in
  let* type_ := ask (node_type_of lib node) in
  print (MsgDoubleClicked name type_) ;;;
  let* is_group := ask (isinstance_RVGroupNode lib node) in
  if is_group then
    let* graph := ask (node_graph_of lib node) in
    expand_group_node graph node
  else ret tt.

(** *** [build_graph]: the first loop of [_build_graph] *)
Definition create_entry (graph : GraphRef) (e : string * HierarchyTree)
  : M W unit :=
  let node_name := fst e in
  print (MsgAddingNode node_name) ;;;
  let node_type := nodeType host node_name in
  let color := get_node_color node_type in
  let children := snd e in
  let* node :=
    (if dict_truthy children
     then call (create_node lib graph "rv.RVGroupNode")
               (ECreateNode graph "rv.RVGroupNode")
     else call (create_node lib graph "rv.RVNode")
               (ECreateNode graph "rv.RVNode")) in
  tell (ESetColor node color) (set_color lib node color) ;;;
  tell (ESetName node (_stripped_name host node_name))
       (set_name lib node (_stripped_name host node_name)) ;;;
  tell (ESetProperty node "original_name" (Some node_name))
       (set_property lib node "original_name" (Some node_name)) ;;;
  tell (ESetProperty node "node_type" node_type)
       (set_property lib node "node_type" node_type).

(** *** The second loop: one upstream neighbour *)
Definition connect_input (graph : GraphRef) (node_name : string)
    (in_port : PortRef) (input_node_name : string) : M W unit :=
  let* input_node :=
    ask (get_node_by_name lib graph (_stripped_name host input_node_name)) in
  match input_node with
  | Some input_node =>
      tell (EConnect (OutputPort input_node 0) in_port)
           (connect_to lib (OutputPort input_node 0) in_port)
  | None => print (MsgInputNotFound input_node_name node_name)
  end.

(** The [if inputs: ... elif isinstance(graph, SubGraph): ...] statement. *)
Definition wire_upstream (graph : GraphRef) (node : NodeRef)
    (node_name : string) (inputs : list string) : M W unit :=
  if list_truthy inputs then
    print (MsgConnectingInputs node_name inputs) ;;;
    let in_port := InputPort node 0 in
    for_each inputs (connect_input graph node_name in_port)
  else if isinstance_SubGraph graph then
    let* input_ports := ask (get_input_port_nodes lib graph) in
    match input_ports with
    | input_port :: _ =>
        let in_port := InputPort node 0 in
        tell (EConnect (OutputPort input_port 0) in_port)
             (connect_to lib (OutputPort input_port 0) in_port)
    | [] => ret tt
    end
  else ret tt.

(** The condition of the second [if]:
    [not outputs or nodeGroup(outputs[0]) != nodeGroup(node_name)],
    and the graph being a [SubGraph]. *)
Definition leaves_group (node_name : string) (outputs : list string)
  : bool :=
  match outputs with
  | [] => true
  | first :: _ => py_ne (nodeGroup host first) (nodeGroup host node_name)
  end.

Definition wire_downstream (graph : GraphRef) (node : NodeRef)
    (node_name : string) (outputs : list string) : M W unit :=
  if leaves_group node_name outputs && isinstance_SubGraph graph then
    print (MsgNoOutputs node_name (nodeType host node_name)) ;;;
    let* output_ports := ask (get_output_port_nodes lib graph) in
    match output_ports with
    | output_port :: _ =>
        let out_port := OutputPort node 0 in
        tell (EConnect out_port (InputPort output_port 0))
             (connect_to lib out_port (InputPort output_port 0))
    | [] => ret tt
    end
  else ret tt.

(** The body of the second loop up to the recursion, for an entry whose
    visual node was found. *)
Definition wire_node (graph : GraphRef) (node : NodeRef)
    (node_name : string) : M W unit :=
  let '(inputs, outputs) := nodeConnections host node_name in
  print (MsgConnections node_name inputs outputs) ;;;
  wire_upstream graph node node_name inputs ;;;
  wire_downstream graph node node_name outputs.

(** One entry of the second loop; [recur] is [_build_graph] itself. *)
Definition wire_entry (recur : HierarchyTree -> GraphRef -> M W unit)
    (graph : GraphRef) (e : string * HierarchyTree) : M W unit :=
  let node_name := fst e in
  let* node :=
    ask (get_node_by_name lib graph (_stripped_name host node_name)) in
  match node with
  | None => ret tt
  | Some node =>
      wire_node graph node node_name ;;;
      let children := snd e in
      if dict_truthy children then
        let* sub_graph := node_expand node in
        recur children sub_graph ;;;
        node_collapse node
      else ret tt
  end.

Definition wiring_pass (recur : HierarchyTree -> GraphRef -> M W unit)
    (graph : GraphRef) : list (string * HierarchyTree) -> M W unit :=
  fix pass (es : list (string * HierarchyTree)) : M W unit :=
    match es with
    | [] => ret tt
    | e :: rest => wire_entry recur graph e ;;; pass rest
    end.

Definition layout (graph : GraphRef) : M W unit :=
  tell (EAutoLayout graph) (auto_layout_nodes lib graph) ;;;
  tell (EFitToSelection graph) (fit_to_selection lib graph) ;;;
  tell (EClearSelection graph) (clear_selection lib graph).

(** The function up to the end of its first loop. *)
Definition creation_pass (graph : GraphRef)
    (es : list (string * HierarchyTree)) : M W unit :=
  print (MsgBuilding (HT es)) ;;;
  for_each es (create_entry graph).

(** *** [_build_graph] *)
Fixpoint _build_graph (nodes : HierarchyTree) (graph : GraphRef)
    {struct nodes} : M W unit :=
  match nodes with
  | HT es =>
      creation_pass graph es ;;;
      wiring_pass _build_graph graph es ;;;
      layout graph
  end.

(** *** [RVNodeGraphDialog.build_graph] *)
Definition build_graph (self_node_graph : GraphRef) : M W unit :=
  tell (EClearSession self_node_graph)
       (clear_session lib self_node_graph) ;;;
  let* root_nodes := lift_result (get_rv_hierarchy host) in
  _build_graph root_nodes self_node_graph.

End Plugin.

(** ** A small canvas

    One implementation of the interface, enough to run the module: nodes
    in creation order, each belonging to one graph; edges as pairs of
    ports; a group node gets its sub-graph, with one input and one output
    port node named after the group's ports, the first time it is
    expanded.  [rename] is what the canvas does to a name it is given. *)

Module SimpleCanvas.

Record VisualNode : Type := mkNode {
  vn_graph : GraphRef;
  vn_class : string;
  vn_name : string;
  vn_color : Color;
  vn_props : list (string * option string);
  vn_expanded : bool;
  vn_sub : option GraphRef;
}.

Record Canvas : Type := mkCanvas {
  cv_nodes : list VisualNode;
  cv_edges : list (PortRef * PortRef);
  cv_subgraphs : nat;
}.

Definition empty : Canvas := mkCanvas [] [] 0.

#[global] Instance GraphRef_eq_dec : EqDecision GraphRef.
Proof. solve_decision. Defined.

#[global] Instance PortRef_eq_dec : EqDecision PortRef.
Proof. solve_decision. Defined.

Definition update_node (n : NodeRef) (f : VisualNode -> VisualNode)
    (w : Canvas) : Canvas :=
  mkCanvas (alter f n (cv_nodes w)) (cv_edges w) (cv_subgraphs w).

Definition add_node (v : VisualNode) (w : Canvas) : NodeRef * Canvas :=
  (length (cv_nodes w),
   mkCanvas (cv_nodes w ++ [v]) (cv_edges w) (cv_subgraphs w)).

Definition default_name (node_type : string) : string :=
  if String.eqb node_type "rv.RVGroupNode" then "RVGroup" else "RVNode".

Definition sc_create_node (graph : GraphRef) (node_type : string)
    (w : Canvas) : NodeRef * Canvas :=
  add_node (mkNode graph node_type (default_name node_type)
                   (13, 18, 23)%Z [] false None) w.

Definition with_color (c : Color) (v : VisualNode) : VisualNode :=
  mkNode (vn_graph v) (vn_class v) (vn_name v) c (vn_props v)
         (vn_expanded v) (vn_sub v).

Definition with_name (s : string) (v : VisualNode) : VisualNode :=
  mkNode (vn_graph v) (vn_class v) s (vn_color v) (vn_props v)
         (vn_expanded v) (vn_sub v).

Definition with_prop (k : string) (x : option string) (v : VisualNode)
  : VisualNode :=
  mkNode (vn_graph v) (vn_class v) (vn_name v) (vn_color v)
         ((k, x) :: vn_props v) (vn_expanded v) (vn_sub v).

Definition with_expanded (b : bool) (sub : option GraphRef)
    (v : VisualNode) : VisualNode :=
  mkNode (vn_graph v) (vn_class v) (vn_name v) (vn_color v) (vn_props v)
         b sub.

Fixpoint find_index {A} (p : A -> bool) (l : list A) (i : nat)
  : option nat :=
  match l with
  | [] => None
  | x :: rest => if p x then Some i else find_index p rest (S i)
  end.

Fixpoint indices_where {A} (p : A -> bool) (l : list A) (i : nat)
  : list nat :=
  match l with
  | [] => []
  | x :: rest =>
      if p x then i :: indices_where p rest (S i)
      else indices_where p rest (S i)
  end.

Definition sc_get_node_by_name (graph : GraphRef) (name : string)
    (w : Canvas) : option NodeRef :=
  find_index (fun v => bool_decide (vn_graph v = graph)
                       && String.eqb (vn_name v) name)
             (cv_nodes w) 0.

Definition port_nodes (cls : string) (graph : GraphRef) (w : Canvas)
  : list NodeRef :=
  indices_where (fun v => bool_decide (vn_graph v = graph)
                          && String.eqb (vn_class v) cls)
                (cv_nodes w) 0.

Definition sc_connect_to (src dst : PortRef) (w : Canvas) : Canvas :=
  if bool_decide ((src, dst) ∈ cv_edges w) then w
  else mkCanvas (cv_nodes w) (cv_edges w ++ [(src, dst)]) (cv_subgraphs w).

Definition sc_get_property (n : NodeRef) (k : string) (w : Canvas)
  : option string :=
  match cv_nodes w !! n with
  | Some v =>
      match List.find (fun kv => String.eqb (fst kv) k) (vn_props v) with
      | Some kv => snd kv
      | None => None
      end
  | None => None
  end.

Definition sc_expand (n : NodeRef) (w : Canvas) : GraphRef * Canvas :=
  match cv_nodes w !! n with
  | Some v =>
      match vn_sub v with
      | Some sub => (sub, update_node n (with_expanded true (Some sub)) w)
      | None =>
          let sub := SubGraph (cv_subgraphs w) in
          let w1 := mkCanvas (cv_nodes w) (cv_edges w)
                             (S (cv_subgraphs w)) in
          let w2 := snd (add_node (mkNode sub "PortInputNode" "in"
                                    (13, 18, 23)%Z [] false None) w1) in
          let w3 := snd (add_node (mkNode sub "PortOutputNode" "out"
                                    (13, 18, 23)%Z [] false None) w2) in
          (sub, update_node n (with_expanded true (Some sub)) w3)
      end
  | None => (SubGraph (cv_subgraphs w), w)
  end.

Definition node_field {A} (f : VisualNode -> A) (d : A) (n : NodeRef)
    (w : Canvas) : A :=
  match cv_nodes w !! n with Some v => f v | None => d end.

Definition lib (rename : string -> string) : NodeGraphQt Canvas :=
  {| create_node := sc_create_node;
     set_color := fun n c => update_node n (with_color c);
     set_name := fun n s => update_node n (with_name (rename s));
     set_property := fun n k x => update_node n (with_prop k x);
     get_property := sc_get_property;
     get_node_by_name := sc_get_node_by_name;
     get_input_port_nodes := port_nodes "PortInputNode";
     get_output_port_nodes := port_nodes "PortOutputNode";
     connect_to := sc_connect_to;
     isinstance_RVGroupNode :=
       node_field (fun v => String.eqb (vn_class v) "rv.RVGroupNode") false;
     is_expanded := node_field vn_expanded false;
     GroupNode_expand := sc_expand;
     collapse := fun n => update_node n (fun v =>
                   with_expanded false (vn_sub v) v);
     node_name_of := node_field vn_name EmptyString;
     node_type_of := node_field vn_class EmptyString;
     node_graph_of := node_field vn_graph (NodeGraph 0);
     connect_signal := fun _ _ _ w => w;
     add_command := fun _ _ _ _ w => w;
     auto_layout_nodes := fun _ w => w;
     fit_to_selection := fun _ w => w;
     clear_selection := fun _ w => w;
     clear_session := fun _ _ => empty |}.

(** A canvas that keeps names as given. *)
Definition plain : NodeGraphQt Canvas := lib (fun s => s).

(** A canvas that drops the blanks in front of a name. *)
Fixpoint ltrim (s : string) : string :=
  match s with
  | String " " rest => ltrim rest
  | _ => s
  end.

Definition trimming : NodeGraphQt Canvas := lib ltrim.

End SimpleCanvas.

(** The canvas when the visual node of a group has been created on the
    top-level graph and expanded: the group is node 0, its sub-graph is
    [SubGraph 0], the port nodes are 1 and 2. *)
Definition group_canvas (host : HostSession) (group_name : string)
    (children : HierarchyTree) : St SimpleCanvas.Canvas :=
  snd (bind (create_entry SimpleCanvas.plain host (NodeGraph 0)
                          (group_name, children))
            (fun _ => node_expand SimpleCanvas.plain 0)
            (SimpleCanvas.empty, [])).

(** The sub-canvases of two groups of the sample session, as
    [_build_graph] finds them, and after the first loop. *)
Definition sequence_children : list (string * HierarchyTree) :=
  [("defaultSequence_sequence", HT [])].
Definition sequence_canvas : St SimpleCanvas.Canvas :=
  group_canvas demo_host "defaultSequence" (HT sequence_children).
Definition source_children : list (string * HierarchyTree) :=
  [("sourceGroup000000_source", HT []); ("sourceGroup000000_cache", HT [])].
Definition source_canvas : St SimpleCanvas.Canvas :=
  group_canvas demo_host "sourceGroup000000" (HT source_children).

Definition sequence_created : St SimpleCanvas.Canvas :=
  snd (creation_pass SimpleCanvas.plain demo_host (SubGraph 0)
         sequence_children sequence_canvas).

Definition blank_created : St SimpleCanvas.Canvas :=
  snd (creation_pass SimpleCanvas.trimming blank_host (NodeGraph 0)
         [(" lonely", HT [])] (SimpleCanvas.empty, [])).

(** A group whose member "seq_c" is fed by two members and, between them
    in its list of inputs, by a node of the top level. *)
Definition mixed_host : HostSession :=
  mkHost ["outsider"; "seq"; "seq_a"; "seq_b"; "seq_c"]
         (fun n => if String.eqb n "outsider" then None
                   else if String.eqb n "seq" then None
                   else Some "seq")
         (fun n => if String.eqb n "seq" then Some "RVSequenceGroup"
                   else Some "RVColor")
         (fun n => if String.eqb n "seq_c"
                   then (["seq_a"; "outsider"; "seq_b"], [])
                   else if String.eqb n "seq_a" then ([], ["seq_c"])
                   else if String.eqb n "seq_b" then ([], ["seq_c"])
                   else if String.eqb n "outsider" then ([], ["seq_c"])
                   else ([], [])).

Definition mixed_children : list (string * HierarchyTree) :=
  [("seq_a", HT []); ("seq_b", HT []); ("seq_c", HT [])].

Definition mixed_canvas : St SimpleCanvas.Canvas :=
  group_canvas mixed_host "seq" (HT mixed_children).

(** ** Mode loading: [g_the_mode], [createMode], [theMode]

    The module-level variable [g_the_mode] holds [None] or a reference to
    an [RVNodeGraphVizQt] object.  The process keeps every mode object ever
    constructed, so that a reference is a position among them. *)

Record RVNodeGraphVizQt : Type := mkMode {
  mode_name : string;
  graph_dialog : option nat;
}.

Record Process : Type := mkProcess {
  g_the_mode : option loc;
  mode_objects : list RVNodeGraphVizQt;
  stdout : list Message;
}.

(** The module as loaded: [g_the_mode = None], nothing constructed. *)
Definition process_start : Process := mkProcess None [] [].

(** [RVNodeGraphVizQt()] *)
Definition new_RVNodeGraphVizQt (p : Process) : loc * Process :=
  (length (mode_objects p),
   mkProcess (g_the_mode p)
             (mode_objects p ++ [mkMode "rv_node_graph_viz_qt_v4" None])
             (stdout p)).

Definition createMode (p : Process) : option loc * Process :=
  let p1 :=
    match g_the_mode p with
    | None =>
        let p' := mkProcess (g_the_mode p) (mode_objects p)
                            (stdout p ++ [MsgCreatingMode]) in
        let '(obj, p'') := new_RVNodeGraphVizQt p' in
        mkProcess (Some obj) (mode_objects p'') (stdout p'')
    | Some _ => p
    end in
  (g_the_mode p1, p1).

Definition theMode (p : Process) : option loc * Process :=
  let p1 :=
    match g_the_mode p with
    | None => snd (createMode p)
    | Some _ => p
    end in
  (g_the_mode p1, p1).

(** What the host may do with the two accessors: call them, in any order,
    any number of times. *)
Inductive Accessor : Type :=
  | CallCreateMode
  | CallTheMode.

Definition call_accessor (a : Accessor) (p : Process) : option loc * Process :=
  match a with
  | CallCreateMode => createMode p
  | CallTheMode => theMode p
  end.

Fixpoint call_accessors (calls : list Accessor) (p : Process)
  : list (option loc) * Process :=
  match calls with
  | [] => ([], p)
  | a :: rest =>
      let '(r, p1) := call_accessor a p in
      let '(rs, p2) := call_accessors rest p1 in
      (r :: rs, p2)
  end.


(** ** Notions used to state what the code does *)

Definition mode_loaded (p : Process) : Prop :=
  g_the_mode p = Some 0 /\ length (mode_objects p) = 1.

(** A computation only adds to the log. *)
Definition log_grows {W A} (m : M W A) : Prop :=
  forall s, snd s `prefix_of` snd (snd (m s)).

(** A computation returns, whatever the state. *)
Definition succeeds {W} (m : M W unit) : Prop :=
  forall s, fst (m s) = Ok tt.

(** The store after [ref[n] = {}] for a key [n] new to the dictionary
    [d] at [ref]. *)
Definition put (objs : store) (ref : loc) (d : pydict) (n : string)
  : store :=
  <[ref := d ++ [(n, length objs)]]> (objs ++ [[]]).

(** What holds of the store and of [all_nodes_map] between iterations:
    a reference stored in a dictionary points to a later object and is
    the one [all_nodes_map] has for that key; [all_nodes_map] has one
    object per name, none of them the root. *)
Record store_ok (objs : store) (idx : gmap string loc) : Prop := {
  ok_entries : forall l d k l',
      objs !! l = Some d -> (k, l') ∈ d ->
      l < l' < length objs /\ idx !! k = Some l';
  ok_inj : forall k1 k2 l,
      idx !! k1 = Some l -> idx !! k2 = Some l -> k1 = k2;
  ok_range : forall k l, idx !! k = Some l -> 0 < l < length objs;
  ok_root : 0 < length objs;
}.

(** Where [n] sits in the hierarchy [t], as the host declares it. *)
Definition placed (host : HostSession) (n : string) (t : HierarchyTree) : Prop :=
  if PyStr.truthy (nodeGroup host n)
  then is_child_of (default EmptyString (nodeGroup host n)) n t = true
  else has_key n t = true.

Record hier_inv (host : HostSession) (seen : list string) (st : HierState) (t : HierarchyTree)
  : Prop := {
  inv_store : store_ok (objs st) (all_nodes_map st);
  inv_seen : forall k, k ∈ seen <-> is_Some (all_nodes_map st !! k);
  inv_value : forall depth,
      length (objs st) <= depth -> reify depth (objs st) 0 = t;
  inv_once : forall m,
      occurrences m t = if bool_decide (m ∈ seen) then 1 else 0;
  inv_placed : forall m, m ∈ seen -> placed host m t;
}.

(** What every run of the loop keeps, duplicates or not: the keys of
    [all_nodes_map] are the names processed, and its references are
    objects of the store. *)
Definition index_ok (seen : list string) (st : HierState) : Prop :=
  (forall k, k ∈ seen <-> is_Some (all_nodes_map st !! k))
  /\ (forall k l, all_nodes_map st !! k = Some l -> l < length (objs st))
  /\ 0 < length (objs st).

(** ** Further notions: the rest of the module and what is proved of it *)

Definition color_keywords : list string :=
  ["Source"; "LUT"; "Filter"; "View"; "Display"; "Sequence"; "Stack";
   "Layout"; "Group"].

(** Two members of one group whose names differ in the character after the
    group's name. *)
Definition twin_host : HostSession :=
  mkHost ["grp"; "grp_a"; "grp.a"]
         (fun n => if String.eqb n "grp" then None else Some "grp")
         (fun _ => Some "RVColor")
         (fun _ => ([], [])).

(** The hierarchy as a value computed without a store: a node with no
    parent group becomes the last root entry, a node with a parent group the
    last entry of the value under that group's name. *)
Definition insert_node (host : HostSession) (t : HierarchyTree) (n : string)
  : HierarchyTree :=
  if PyStr.truthy (nodeGroup host n)
  then append_under
         (fun k => String.eqb k (default EmptyString (nodeGroup host n))) n t
  else root_append n t.

Definition hierarchy_by_insertion (host : HostSession) : HierarchyTree :=
  fold_left (insert_node host) (nodes host) (HT []).

Definition keys (t : HierarchyTree) : list string := map fst (entries t).

(** The keys of the values stored under the key [g], wherever it occurs,
    in reading order. *)
Fixpoint children_names (g : string) (t : HierarchyTree) : list string :=
  match t with
  | HT es =>
      flat_map (fun e => (if String.eqb (fst e) g then keys (snd e) else [])
                         ++ children_names g (snd e)) es
  end.

(** The node [n] declares the non-empty group [g]. *)
Definition member_of (host : HostSession) (g n : string) : bool :=
  PyStr.truthy (nodeGroup host n)
  && String.eqb (default EmptyString (nodeGroup host n)) g.

(** What a computation adds to the log when run from [s]. *)
Definition emitted {W A} (m : M W A) (s : St W) : list Effect :=
  drop (length (snd s)) (snd (snd (m s))).

(** Every effect a computation adds to the log satisfies [ok]. *)
Definition emits_only {W A} (ok : Effect -> Prop) (m : M W A) : Prop :=
  forall s, exists tr, snd (snd (m s)) = snd s ++ tr /\ Forall ok tr.

(** The effects the wiring of one entry may have on the visual node
    [node]: prints, and connections at the node's own ports. *)
Definition wiring_effect (node : NodeRef) (e : Effect) : Prop :=
  match e with
  | EPrint _ => True
  | EConnect src dst => src = OutputPort node 0 \/ dst = InputPort node 0
  | _ => False
  end.

Definition not_clear_session (e : Effect) : Prop :=
  match e with
  | EClearSession _ => False
  | _ => True
  end.





(** A group with two members whose names differ in the character after
    the group's name; the second is itself a group.  On the sub-canvas
    both have the display name "a", and the leaf is created first. *)
Definition sibling_host : HostSession :=
  mkHost ["grp"; "grp_a"; "grp.a"; "grp.a_x"]
         (fun n => if String.eqb n "grp" then None
                   else if String.eqb n "grp.a_x" then Some "grp.a"
                   else Some "grp")
         (fun _ => Some "RVColor")
         (fun _ => ([], [])).

Definition sibling_children : list (string * HierarchyTree) :=
  [("grp_a", HT []); ("grp.a", HT [("grp.a_x", HT [])])].

Definition sibling_created : St SimpleCanvas.Canvas :=
  snd (creation_pass SimpleCanvas.plain sibling_host (SubGraph 0)
         sibling_children
         (group_canvas sibling_host "grp" (HT sibling_children))).

(** Expansions of [node] minus its collapses in a log. *)
Definition expand_step (node : NodeRef) (e : Effect) : Z :=
  match e with
  | EExpand n _ => if Nat.eqb n node then 1%Z else 0%Z
  | ECollapse n => if Nat.eqb n node then (-1)%Z else 0%Z
  | _ => 0%Z
  end.

Definition expand_net (node : NodeRef) (tr : list Effect) : Z :=
  fold_right (fun e acc => (expand_step node e + acc)%Z) 0%Z tr.

(** When a computation returns, the effects it added leave the expansion
    count of [node] changed by [k]. *)
Definition nets {W A} (node : NodeRef) (k : Z) (m : M W A) : Prop :=
  forall s a s', m s = (Ok a, s') ->
    exists tr, snd s' = snd s ++ tr /\ expand_net node tr = k.

(** A canvas with one collapsed group node, not yet expanded. *)
Definition collapsed_canvas : St SimpleCanvas.Canvas :=
  snd (create_entry SimpleCanvas.plain demo_host (NodeGraph 0)
         ("defaultSequence", HT sequence_children) (SimpleCanvas.empty, [])).

(** The log is write-only: a computation run with some log behaves as run
    with an empty one, and adds the same effects. *)
Definition log_blind {W A} (m : M W A) : Prop :=
  forall w tr,
    m (w, tr) = (fst (m (w, [])),
                 (fst (snd (m (w, []))), tr ++ snd (snd (m (w, []))))).

(** ** The dialog and the mode's menu action

    [RVNodeGraphDialog] is a Qt main window that owns one node graph;
    [show_graph_window] is the action of the mode's menu entry.  The calls
    they make beyond those of [_build_graph] are the window's own and the
    configuration of a new graph. *)

Inductive WindowEffect : Type :=
  | WSetWindowTitle (title : string)
  | WSetMinimumSize (width height : Z)
  | WResize (width height : Z)
  | WNewNodeGraph (graph : GraphRef)
  | WSetBackgroundColor (graph : GraphRef) (c : Color)
  | WSetGridColor (graph : GraphRef) (c : Color)
  | WSetGridMode (graph : GraphRef) (mode : string)
  | WRegisterNode (graph : GraphRef) (node_class : string)
  | WSetCentralWidget (graph : GraphRef)
  | WShow
  | WRaise
  | WActivateWindow.

(** The log of the application: effects on a canvas, and calls on the
    window of a dialog. *)
Inductive AppEffect : Type :=
  | OnCanvas (e : Effect)
  | OnWindow (dialog : nat) (e : WindowEffect).

(** The part of Qt and NodeGraphQt the dialog uses beyond [NodeGraphQt]. *)
Record QtToolkit (W : Type) : Type := mkQt {
  new_NodeGraph : W -> GraphRef * W;
  window_call : nat -> WindowEffect -> W -> W;
}.
Arguments mkQt {W}. Arguments new_NodeGraph {W}. Arguments window_call {W}.

Record RVNodeGraphDialog : Type := mkDialog {
  _node_graph : GraphRef;
}.

(** The widgets, the log, and the dialog objects constructed so far; a
    mode's [graph_dialog] is a position among them. *)
Record AppState (W : Type) : Type := mkApp {
  app_widgets : W;
  app_log : list AppEffect;
  app_dialogs : list RVNodeGraphDialog;
}.
Arguments mkApp {W}. Arguments app_widgets {W}. Arguments app_log {W}.
Arguments app_dialogs {W}.

Section Dialog.
Context {W : Type} (qt : QtToolkit W) (lib : NodeGraphQt W).

(** One call on the window of [dialog]. *)
Definition on_window (dialog : nat) (e : WindowEffect) (a : AppState W)
  : AppState W :=
  mkApp (window_call qt dialog e (app_widgets a))
        (app_log a ++ [OnWindow dialog e]) (app_dialogs a).

(** One command of the [NodeGraphQt] interface. *)
Definition on_canvas (e : Effect) (f : W -> W) (a : AppState W)
  : AppState W :=
  mkApp (f (app_widgets a)) (app_log a ++ [OnCanvas e]) (app_dialogs a).

(** [RVNodeGraphDialog._init_graph] *)
Definition _init_graph (dialog : nat) (a : AppState W)
  : GraphRef * AppState W :=
  let '(graph, w) := new_NodeGraph qt (app_widgets a) in
  let a0 := mkApp w (app_log a ++ [OnWindow dialog (WNewNodeGraph graph)])
                  (app_dialogs a) in
  let a1 := on_window dialog (WSetBackgroundColor graph (45, 45, 45)%Z) a0 in
  let a2 := on_window dialog (WSetGridColor graph (60, 60, 60)%Z) a1 in
  let a3 := on_window dialog (WSetGridMode graph "GRID_DISPLAY_DOTS") a2 in
  let a4 := on_canvas (EConnectSignal graph "node_selection_changed"
                                      "_on_node_selection_changed")
                      (connect_signal lib graph "node_selection_changed"
                                      "_on_node_selection_changed") a3 in
  let a5 := on_canvas (EConnectSignal graph "node_double_clicked"
                                      "_on_node_double_clicked")
                      (connect_signal lib graph "node_double_clicked"
                                      "_on_node_double_clicked") a4 in
  let a6 := on_window dialog (WRegisterNode graph "RVNode") a5 in
  let a7 := on_window dialog (WRegisterNode graph "RVGroupNode") a6 in
  let a8 := on_canvas (EAddCommand graph "nodes" "Expand Group"
                                   "expand_group_node")
                      (add_command lib graph "nodes" "Expand Group"
                                   "expand_group_node") a7 in
  (graph, a8).

(** [RVNodeGraphDialog()]: the constructor; the new object is the last of
    [app_dialogs]. *)
Definition new_RVNodeGraphDialog (a : AppState W) : nat * AppState W :=
  let dialog := length (app_dialogs a) in
  let a1 := on_window dialog (WSetWindowTitle "RV Node Graph Inspector") a in
  let a2 := on_window dialog (WSetMinimumSize 800 500) a1 in
  let a3 := on_window dialog (WResize 1200 800) a2 in
  let '(graph, a4) := _init_graph dialog a3 in
  let a5 := on_window dialog (WSetCentralWidget graph) a4 in
  (dialog,
   mkApp (app_widgets a5) (app_log a5) (app_dialogs a5 ++ [mkDialog graph])).

(** [dialog.build_graph()], its effects entered in the application log. *)
Definition dialog_build_graph (host : HostSession) (graph : GraphRef)
    (a : AppState W) : Result unit * AppState W :=
  let '(r, (w, tr)) := build_graph lib host graph (app_widgets a, []) in
  (r, mkApp w (app_log a ++ map OnCanvas tr) (app_dialogs a)).

(** [RVNodeGraphVizQt.show_graph_window] *)
Definition show_graph_window (host : HostSession) (self : RVNodeGraphVizQt)
    (a : AppState W) : Result unit * (RVNodeGraphVizQt * AppState W) :=
  let '(self1, a1) :=
    match graph_dialog self with
    | None =>
        let '(dialog, a') := new_RVNodeGraphDialog a in
        (mkMode (mode_name self) (Some dialog), a')
    | Some _ => (self, a)
    end in
  match graph_dialog self1 with
  | None => (Raise (AttributeError "build_graph"), (self1, a1))
  | Some dialog =>
      match app_dialogs a1 !! dialog with
      | None => (Raise (AttributeError "build_graph"), (self1, a1))
      | Some d =>
          match dialog_build_graph host (_node_graph d) a1 with
          | (Ok _, a2) =>
              (Ok tt,
               (self1,
                on_window dialog WActivateWindow
                  (on_window dialog WRaise (on_window dialog WShow a2))))
          | (Raise e, a2) => (Raise e, (self1, a2))
          end
      end
  end.

(** The action invoked once per host state, in turn; an invocation that
    raises leaves the mode and the application as they are at that
    point. *)
Fixpoint show_graph_windows (hosts : list HostSession)
    (self : RVNodeGraphVizQt) (a : AppState W)
  : RVNodeGraphVizQt * AppState W :=
  match hosts with
  | [] => (self, a)
  | host :: rest =>
      let '(_, (self1, a1)) := show_graph_window host self a in
      show_graph_windows rest self1 a1
  end.

End Dialog.

(** The mode refers to a dialog that exists. *)
Definition dialog_ok {W} (self : RVNodeGraphVizQt) (a : AppState W) : Prop :=
  forall dialog, graph_dialog self = Some dialog ->
                 is_Some (app_dialogs a !! dialog).

Definition is_window_call (e : AppEffect) : bool :=
  match e with
  | OnWindow _ WShow | OnWindow _ WRaise | OnWindow _ WActivateWindow => true
  | _ => false
  end.

Definition is_construction (e : AppEffect) : bool :=
  match e with
  | OnWindow _ (WNewNodeGraph _) => true
  | _ => false
  end.

(** A toolkit over the small canvas: graphs are numbered, window calls
    leave the canvas alone. *)
Definition simple_qt : QtToolkit SimpleCanvas.Canvas :=
  mkQt (fun w => (NodeGraph 0, w)) (fun _ _ w => w).

Definition fresh_mode : RVNodeGraphVizQt :=
  mkMode "rv_node_graph_viz_qt_v4" None.

Definition fresh_app : AppState SimpleCanvas.Canvas :=
  mkApp SimpleCanvas.empty [] [].

(** What wiring one upstream neighbour into [in_port] leaves in the log: a
    connection from the output of some node, or the warning that names the
    neighbour. *)
Definition input_outcome (node_name : string) (in_port : PortRef)
    (input_node_name : string) (e : Effect) : Prop :=
  (exists input_node, e = EConnect (OutputPort input_node 0) in_port)
  \/ e = EPrint (MsgInputNotFound input_node_name node_name).

(* ================================================================== *)
(** * Properties *)
(* ================================================================== *)

(** ** Strings *)

Lemma prefix_app_iff (p s : string) :
  String.prefix p s = true <-> exists rest, s = p +:+ rest.
Proof.
  revert s. induction p as [|a p IH]; intros s.
  - split; [intros _; exists s; reflexivity | intros _; now destruct s].
  - destruct s as [|b s]; simpl.
    + split; [discriminate | intros [rest H]; discriminate].
    + destruct (Ascii.ascii_dec a b) as [->|Hne].
      * rewrite IH. split; intros [rest H]; exists rest.
        -- simpl. now rewrite H.
        -- simpl in H. now injection H.
      * split; [discriminate|]. intros [rest H]. simpl in H.
        injection H as H1 H2. congruence.
Qed.

Lemma contains_unfold (needle hay : string) :
  PyStr.contains needle hay =
  if String.prefix needle hay then true
  else match hay with
       | EmptyString => false
       | String _ rest => PyStr.contains needle rest
       end.
Proof. destruct hay; reflexivity. Qed.

Lemma contains_iff (needle hay : string) :
  PyStr.contains needle hay = true
  <-> exists pre post, hay = pre +:+ needle +:+ post.
Proof.
  induction hay as [|c hay IH]; rewrite contains_unfold.
  - destruct (String.prefix needle "") eqn:Hp.
    + split; [intros _|reflexivity].
      apply prefix_app_iff in Hp as [rest Hr]. exists "", rest. exact Hr.
    + split; [discriminate|]. intros (pre & post & H).
      destruct pre; simpl in H; [|discriminate].
      assert (String.prefix needle "" = true)
        by (apply prefix_app_iff; eauto).
      congruence.
  - destruct (String.prefix needle (String c hay)) eqn:Hp.
    + split; [intros _|reflexivity].
      apply prefix_app_iff in Hp as [rest Hr]. exists "", rest. exact Hr.
    + rewrite IH. split.
      * intros (pre & post & H). exists (String c pre), post.
        simpl. now rewrite H.
      * intros (pre & post & H). destruct pre as [|d pre]; simpl in H.
        -- assert (String.prefix needle (String c hay) = true)
             by (apply prefix_app_iff; eauto).
           congruence.
        -- injection H as _ H. eauto.
Qed.

Lemma slice_from_app (p s : string) :
  PyStr.slice_from (String.length p) (p +:+ s) = s.
Proof. induction p as [|a p IH]; simpl; [now destruct s | exact IH]. Qed.

Lemma slice_from_succ_app (p : string) (c : ascii) (s : string) :
  PyStr.slice_from (String.length p + 1) (p +:+ String c s) = s.
Proof.
  induction p as [|a p IH]; simpl; [now destruct s | exact IH].
Qed.

Lemma truthy_Some_iff (g : string) :
  PyStr.truthy (Some g) = true <-> g <> "".
Proof. destruct g; simpl; split; congruence. Qed.

(** ** The colour classifier *)

Lemma get_node_color_truthy (ty : string) :
  PyStr.truthy (Some ty) = true ->
  get_node_color (Some ty) =
    if PyStr.contains "Source" ty then (80, 120, 80)%Z
    else if PyStr.contains "LUT" ty then (150, 120, 80)%Z
    else if PyStr.contains "Filter" ty then (120, 100, 80)%Z
    else if PyStr.contains "View" ty || PyStr.contains "Display" ty
         then (80, 80, 130)%Z
    else if PyStr.contains "Sequence" ty then (130, 80, 130)%Z
    else if PyStr.contains "Stack" ty then (80, 130, 130)%Z
    else if PyStr.contains "Layout" ty then (130, 130, 80)%Z
    else if PyStr.contains "Group" ty then (110, 110, 110)%Z
    else (100, 100, 100)%Z.
Proof. intros H. unfold get_node_color. now rewrite H. Qed.

Lemma get_node_color_table (node_type : option string) :
  get_node_color node_type = first_match_color node_type.
Proof.
  destruct node_type as [ty|]; [|reflexivity].
  destruct (PyStr.truthy (Some ty)) eqn:Ht.
  - rewrite get_node_color_truthy by exact Ht.
    unfold first_match_color, color_rules, List.find, rule_matches, existsb, fst.
    repeat match goal with
           | |- context [PyStr.contains ?k ty] =>
               destruct (PyStr.contains k ty); cbn [orb snd]; try reflexivity
           end.
  - destruct ty; [reflexivity | discriminate].
Qed.

Lemma find_first_match {A} (p : A -> bool) (earlier later : list A) (r : A) :
  (forall r', r' ∈ earlier -> p r' = false) ->
  p r = true ->
  List.find p (earlier ++ r :: later) = Some r.
Proof.
  induction earlier as [|x earlier IH]; intros Hno Hr; simpl.
  - now rewrite Hr.
  - rewrite (Hno x) by left. apply IH; [|exact Hr].
    intros r' Hin. apply Hno. now right.
Qed.

Lemma find_no_match {A} (p : A -> bool) (l : list A) :
  (forall r, r ∈ l -> p r = false) -> List.find p l = None.
Proof.
  induction l as [|x l IH]; intros Hno; simpl; [reflexivity|].
  rewrite (Hno x) by left. apply IH. intros r Hin. apply Hno. now right.
Qed.

(** C3. [get_node_color] maps a node-type string to an RGB triple by the
    first matching rule of the table [color_rules], whose order is Source,
    LUT, Filter, View-or-Display, Sequence, Stack, Layout, Group; a keyword
    matches when it occurs in the string as it is written (same letters,
    same case, any position); an absent or empty type string, and one that
    no rule matches, give the neutral (100, 100, 100); when several rules
    match, the colour is that of the earliest. *)
Theorem get_node_color_first_match_wins :
  map fst color_rules =
    [["Source"]; ["LUT"]; ["Filter"]; ["View"; "Display"]; ["Sequence"];
     ["Stack"]; ["Layout"]; ["Group"]]
  /\ (forall kw ty, PyStr.contains kw ty = true
                    <-> exists pre post, ty = pre +:+ kw +:+ post)
  /\ get_node_color None = (100, 100, 100)%Z
  /\ get_node_color (Some "") = (100, 100, 100)%Z
  /\ (forall ty,
        (forall r, r ∈ color_rules -> rule_matches ty r = false) ->
        get_node_color (Some ty) = (100, 100, 100)%Z)
  /\ (forall ty earlier r later,
        color_rules = earlier ++ r :: later ->
        rule_matches ty r = true ->
        (forall r', r' ∈ earlier -> rule_matches ty r' = false) ->
        get_node_color (Some ty) = snd r)
  /\ get_node_color (Some "source") = (100, 100, 100)%Z
  /\ get_node_color (Some "RVSourceGroup") = (80, 120, 80)%Z
  /\ get_node_color (Some "RVStackGroup") = (80, 130, 130)%Z.
Proof.
  split; [reflexivity|]. split; [exact contains_iff|].
  split; [reflexivity|]. split; [reflexivity|].
  split; [|split; [|repeat split; reflexivity]].
  - intros ty Hno. rewrite get_node_color_table. unfold first_match_color.
    now rewrite (find_no_match _ _ Hno).
  - intros ty earlier r later Hrules Hr Hearlier.
    rewrite get_node_color_table. unfold first_match_color.
    rewrite Hrules. now rewrite (find_first_match _ _ _ _ Hearlier Hr).
Qed.

(** The rules applied to the type names of the host's node kinds. *)
Example get_node_color_samples :
  map (fun ty => get_node_color (Some ty))
      ["SourceIPNode"; "LUTNode"; "FilterNode"; "ViewNode"; "DisplayNode";
       "SequenceGroupNode"; "StackGroupNode"; "LayoutGroupNode";
       "FolderGroupNode"; "RVColor"]
  = [(80, 120, 80); (150, 120, 80); (120, 100, 80); (80, 80, 130);
     (80, 80, 130); (130, 80, 130); (80, 130, 130); (130, 130, 80);
     (110, 110, 110); (100, 100, 100)]%Z.
Proof. reflexivity. Qed.

(** ** Display names *)

(** C5. The display name of a node is its host name without its group's
    name and the one character after it, when the host name starts with
    the group's name; it is the host name when the host name does not start
    with the group's name, and when the node has no group. *)
Theorem stripped_name_removes_group_prefix (host : HostSession)
    (node_name : string) :
  (forall g c rest,
      nodeGroup host node_name = Some g -> g <> "" ->
      node_name = g +:+ String c rest ->
      _stripped_name host node_name = rest)
  /\ (forall g,
        nodeGroup host node_name = Some g ->
        (forall rest, node_name <> g +:+ rest) ->
        _stripped_name host node_name = node_name)
  /\ (nodeGroup host node_name = None \/ nodeGroup host node_name = Some "" ->
      _stripped_name host node_name = node_name)
  /\ (node_name = "group1_node5" ->
      nodeGroup host node_name = Some "group1" ->
      _stripped_name host node_name = "node5").
Proof.
  unfold _stripped_name. repeat split.
  - intros g c rest Hg Hne Hname. rewrite Hg. cbn [from_option id].
    apply truthy_Some_iff in Hne. rewrite Hne.
    assert (Hp : PyStr.startswith node_name g = true)
      by (apply prefix_app_iff; eauto).
    rewrite Hp. cbn [andb]. rewrite Hname. apply slice_from_succ_app.
  - intros g Hg Hnot. rewrite Hg. cbn [from_option id].
    destruct (PyStr.startswith node_name g) eqn:Hp.
    + apply prefix_app_iff in Hp as [rest Hr]. now destruct (Hnot rest).
    + now rewrite andb_false_r.
  - intros [Hg|Hg]; now rewrite Hg.
  - intros -> Hg. now rewrite Hg.
Qed.

(** A node named exactly as its group keeps nothing. *)
Remark stripped_name_of_group_name (host : HostSession) (g : string) :
  nodeGroup host g = Some g -> g <> "" -> _stripped_name host g = "".
Proof.
  intros Hg Hne. unfold _stripped_name. rewrite Hg. cbn [from_option id].
  apply truthy_Some_iff in Hne. rewrite Hne.
  assert (Hp : PyStr.startswith g g = true).
  { apply prefix_app_iff. exists "". clear.
    induction g as [|a g IH]; [reflexivity|].
    change (String a g = String a (g +:+ "")). now f_equal. }
  rewrite Hp. cbn [andb]. unfold PyStr.len. clear.
  induction g as [|a g IH]; [reflexivity | exact IH].
Qed.

(** ** Mode loading *)


Lemma call_accessor_start (a : Accessor) :
  fst (call_accessor a process_start) = Some 0
  /\ mode_loaded (snd (call_accessor a process_start)).
Proof. destruct a; repeat split. Qed.

Lemma call_accessor_loaded (a : Accessor) (p : Process) :
  mode_loaded p -> call_accessor a p = (Some 0, p).
Proof.
  intros [Hg Hlen]. destruct a; simpl; unfold createMode, theMode;
    rewrite Hg; cbn zeta; now rewrite Hg.
Qed.

Lemma call_accessors_loaded (calls : list Accessor) (p : Process) :
  mode_loaded p ->
  call_accessors calls p = (map (fun _ => Some 0) calls, p).
Proof.
  intros Hp. induction calls as [|a calls IH]; simpl; [reflexivity|].
  rewrite (call_accessor_loaded a p Hp). now rewrite IH.
Qed.

(** C9. The mode is a singleton of the process: the module starts with no
    mode object; whatever sequence of [createMode] and [theMode] calls the
    host makes, every call returns the same object, the one constructed by
    the first call, and no second object is ever constructed. *)
Theorem mode_singleton (calls : list Accessor) :
  mode_objects process_start = []
  /\ (forall r, r ∈ fst (call_accessors calls process_start) -> r = Some 0)
  /\ length (mode_objects (snd (call_accessors calls process_start))) <= 1
  /\ (calls <> [] ->
      length (mode_objects (snd (call_accessors calls process_start))) = 1
      /\ g_the_mode (snd (call_accessors calls process_start)) = Some 0).
Proof.
  split; [reflexivity|].
  destruct calls as [|a calls].
  - simpl. repeat split; try lia; try congruence. intros r Hr. inversion Hr.
  - cbn [call_accessors].
    destruct (call_accessor_start a) as [Hr Hp].
    destruct (call_accessor a process_start) as [r p1]. simpl in Hr, Hp.
    rewrite (call_accessors_loaded calls p1 Hp). simpl.
    destruct Hp as [Hg Hlen]. repeat split; try lia; try assumption.
    intros r' Hin. apply elem_of_cons in Hin as [->|Hin]; [exact Hr|].
    apply list_elem_of_fmap in Hin as (_ & -> & _). reflexivity.
Qed.

(** ** Running the module's code *)

Ltac run_monad :=
  unfold bind, ask, tell, call, print, ret, raise, lift_result; cbn.

Section Facts.
Context {W : Type} (lib : NodeGraphQt W) (host : HostSession).
Local Open Scope py_scope.

Lemma bind_ok {A B} (m : M W A) (k : A -> M W B) (s s' : St W) (a : A) :
  m s = (Ok a, s') -> bind m k s = k a s'.
Proof. intros H. unfold bind. now rewrite H. Qed.

Lemma bind_raise {A B} (m : M W A) (k : A -> M W B) (s s' : St W) e :
  m s = (Raise e, s') -> bind m k s = (Raise e, s').
Proof. intros H. unfold bind. now rewrite H. Qed.

Lemma group_attribute_ok (node : NodeRef) (attribute : string) (s : St W) :
  isinstance_RVGroupNode lib node (fst s) = true ->
  group_attribute lib node attribute s = (Ok tt, s).
Proof.
  intros H. unfold group_attribute, bind, ask. now rewrite H.
Qed.

(** C8. Expanding is idempotent.  On a group node that is already
    expanded, [expand_group_node] changes nothing and logs nothing, and
    the double-click handler only logs the click: neither calls
    [expand], neither prints the expansion notice.  On a collapsed group
    node [expand_group_node] does call [expand] and then prints the
    notice. *)
Theorem expand_group_node_only_when_collapsed
    (graph : GraphRef) (node : NodeRef) (s : St W) :
  isinstance_RVGroupNode lib node (fst s) = true ->
  (is_expanded lib node (fst s) = true ->
     expand_group_node lib graph node s = (Ok tt, s)
     /\ _on_node_double_clicked lib node s =
          (Ok tt, (fst s, snd s ++
             [EPrint (MsgDoubleClicked (node_name_of lib node (fst s))
                                       (node_type_of lib node (fst s)))])))
  /\ (is_expanded lib node (fst s) = false ->
      exists sub_graph w1 w2,
        GroupNode_expand lib node (fst s) = (sub_graph, w1)
        /\ expand_group_node lib graph node s =
             (Ok tt, (w2, snd s ++
                [EExpand node sub_graph;
                 EConnectSignal sub_graph "node_selection_changed"
                                "_on_node_selection_changed";
                 EConnectSignal sub_graph "node_double_clicked"
                                "_on_node_double_clicked";
                 EAddCommand sub_graph "nodes" "Expand Group"
                             "expand_group_node";
                 EPrint (MsgExpanding (node_name_of lib node w2))]))).
Proof.
  destruct s as [w tr]. cbn [fst snd]. intros Hgroup. split.
  - intros Hexp. split.
    + unfold expand_group_node, group_attribute. run_monad.
      rewrite Hgroup. cbn. now rewrite Hexp.
    + unfold _on_node_double_clicked, expand_group_node, group_attribute.
      run_monad. rewrite Hgroup. cbn. rewrite Hgroup. cbn.
      now rewrite Hexp.
  - intros Hcol.
    destruct (GroupNode_expand lib node w) as [sub_graph w1] eqn:Hx.
    eexists sub_graph, w1, _. split; [reflexivity|].
    unfold expand_group_node, node_expand, RVGroupNode_expand,
      group_attribute. run_monad.
    repeat progress (rewrite ?Hgroup, ?Hcol, ?Hx; run_monad).
    rewrite <- !app_assoc. reflexivity.
Qed.

End Facts.

(** ** The log only grows *)

Lemma HierarchyTree_ind (P : HierarchyTree -> Prop) :
  (forall es, Forall (fun e => P (snd e)) es -> P (HT es)) ->
  forall t, P t.
Proof.
  intros step. fix IH 1. intros [es]. apply step.
  induction es as [|[k c] es IHes]; constructor; [apply IH | exact IHes].
Qed.

Create HintDb log.

Section LogGrows.
Context {W : Type} (lib : NodeGraphQt W) (host : HostSession).
Local Open Scope py_scope.
Local Abbreviation log_grows := (@log_grows W _).


Lemma log_grows_ret {A} (a : A) : log_grows (ret a).
Proof. intros s. reflexivity. Qed.

Lemma log_grows_raise {A} e : log_grows (@raise W A e).
Proof. intros s. reflexivity. Qed.

Lemma log_grows_lift {A} (r : Result A) : log_grows (lift_result r).
Proof. intros s. reflexivity. Qed.

Lemma log_grows_ask {A} (q : W -> A) : log_grows (ask q).
Proof. intros s. reflexivity. Qed.

Lemma log_grows_tell e f : log_grows (tell e f).
Proof. intros s. cbn. now apply prefix_app_r. Qed.

Lemma log_grows_print m : log_grows (print m).
Proof. apply log_grows_tell. Qed.

Lemma log_grows_call {A} (f : W -> A * W) e : log_grows (call f e).
Proof.
  intros s. unfold call. destruct (f (fst s)) as [a w]. cbn.
  now apply prefix_app_r.
Qed.

Lemma log_grows_bind {A B} (m : M W A) (k : A -> M W B) :
  log_grows m -> (forall a, log_grows (k a)) -> log_grows (bind m k).
Proof.
  intros Hm Hk s. unfold bind. specialize (Hm s).
  destruct (m s) as [[a|e] s1]; cbn in *; [|exact Hm].
  etrans; [exact Hm | apply Hk].
Qed.

Lemma log_grows_for_each {A} (xs : list A) (body : A -> M W unit) :
  (forall x, log_grows (body x)) -> log_grows (for_each xs body).
Proof.
  intros Hbody. induction xs as [|x xs IH]; cbn [for_each].
  - apply log_grows_ret.
  - apply log_grows_bind; [apply Hbody | intros _; exact IH].
Qed.

Hint Resolve log_grows_ret log_grows_raise log_grows_lift log_grows_ask
  log_grows_tell log_grows_print log_grows_call : log.

Ltac log_grows_tac :=
  repeat first
    [ apply log_grows_bind; [|intros ?]
    | apply log_grows_for_each; intros ?
    | match goal with
      | |- log_grows (if ?b then _ else _) => destruct b
      | |- log_grows (match ?x with _ => _ end) => destruct x
      end
    | solve [auto with log] ].

Lemma log_grows_group_attribute node attribute :
  log_grows (group_attribute lib node attribute).
Proof. unfold group_attribute. log_grows_tac. Qed.

Lemma log_grows_node_expand node : log_grows (node_expand lib node).
Proof.
  unfold node_expand, RVGroupNode_expand.
  apply log_grows_bind; [apply log_grows_group_attribute | intros _].
  log_grows_tac.
Qed.

Lemma log_grows_node_collapse node : log_grows (node_collapse lib node).
Proof.
  unfold node_collapse.
  apply log_grows_bind; [apply log_grows_group_attribute | intros _].
  log_grows_tac.
Qed.

Lemma log_grows_create_entry graph e :
  log_grows (create_entry lib host graph e).
Proof. unfold create_entry. log_grows_tac. Qed.

Lemma log_grows_creation_pass graph es :
  log_grows (creation_pass lib host graph es).
Proof.
  unfold creation_pass. apply log_grows_bind; [auto with log | intros _].
  apply log_grows_for_each. intros e. apply log_grows_create_entry.
Qed.

Lemma log_grows_connect_input graph node_name in_port x :
  log_grows (connect_input lib host graph node_name in_port x).
Proof. unfold connect_input. log_grows_tac. Qed.

Lemma log_grows_wire_upstream graph node node_name inputs :
  log_grows (wire_upstream lib host graph node node_name inputs).
Proof.
  unfold wire_upstream. destruct (list_truthy inputs).
  - apply log_grows_bind; [auto with log | intros _].
    apply log_grows_for_each. intros x. apply log_grows_connect_input.
  - log_grows_tac.
Qed.

Lemma log_grows_wire_downstream graph node node_name outputs :
  log_grows (wire_downstream lib host graph node node_name outputs).
Proof. unfold wire_downstream. log_grows_tac. Qed.

Lemma log_grows_wire_node graph node node_name :
  log_grows (wire_node lib host graph node node_name).
Proof.
  unfold wire_node. destruct (nodeConnections host node_name) as [i o].
  apply log_grows_bind; [auto with log | intros _].
  apply log_grows_bind; [apply log_grows_wire_upstream | intros _].
  apply log_grows_wire_downstream.
Qed.

Lemma log_grows_layout graph : log_grows (layout lib graph).
Proof. unfold layout. log_grows_tac. Qed.

Lemma log_grows_wire_entry recur graph e :
  (forall g, log_grows (recur (snd e) g)) ->
  log_grows (wire_entry lib host recur graph e).
Proof.
  intros Hrec. unfold wire_entry.
  apply log_grows_bind; [auto with log | intros [node|]];
    [|apply log_grows_ret].
  apply log_grows_bind; [apply log_grows_wire_node | intros _].
  destruct (dict_truthy (snd e)); [|apply log_grows_ret].
  apply log_grows_bind; [apply log_grows_node_expand | intros sub].
  apply log_grows_bind; [apply Hrec | intros _].
  apply log_grows_node_collapse.
Qed.

Lemma log_grows_wiring_pass recur graph es :
  Forall (fun e => forall g, log_grows (recur (snd e) g)) es ->
  log_grows (wiring_pass lib host recur graph es).
Proof.
  induction 1 as [|e es He _ IH]; cbn [wiring_pass].
  - apply log_grows_ret.
  - apply log_grows_bind; [|intros _; exact IH].
    now apply log_grows_wire_entry.
Qed.

Lemma log_grows_build_graph nodes graph :
  log_grows (_build_graph lib host nodes graph).
Proof.
  revert graph. induction nodes as [es IH] using HierarchyTree_ind.
  intros graph. cbn [_build_graph].
  apply log_grows_bind; [apply log_grows_creation_pass | intros _].
  apply log_grows_bind; [|intros _; apply log_grows_layout].
  apply log_grows_wiring_pass. exact IH.
Qed.

Lemma log_grows_then {A B} (m : M W A) (k : A -> M W B) (s : St W) :
  (forall a, log_grows (k a)) ->
  snd (snd (m s)) `prefix_of` snd (snd (bind m k s)).
Proof.
  intros Hk. unfold bind. destruct (m s) as [[a|e] s1]; cbn; [|reflexivity].
  apply Hk.
Qed.

End LogGrows.

(** ** Steps that cannot raise *)

Section Succeeds.
Context {W : Type} (lib : NodeGraphQt W) (host : HostSession).
Local Open Scope py_scope.
Local Abbreviation succeeds := (@succeeds W).


Lemma succeeds_ret : succeeds (ret tt).
Proof. intros s. reflexivity. Qed.

Lemma succeeds_tell e f : succeeds (tell e f).
Proof. intros s. reflexivity. Qed.

Lemma succeeds_seq (m k : M W unit) :
  succeeds m -> succeeds k -> succeeds (m ;;; k).
Proof.
  intros Hm Hk s. unfold bind. specialize (Hm s).
  destruct (m s) as [[[]|e] s1]; cbn in *; [apply Hk | discriminate].
Qed.

Lemma succeeds_ask {A} (q : W -> A) (k : A -> M W unit) :
  (forall a, succeeds (k a)) -> succeeds (bind (ask q) k).
Proof. intros Hk s. unfold bind, ask. apply Hk. Qed.

Lemma succeeds_call {A} (f : W -> A * W) e (k : A -> M W unit) :
  (forall a, succeeds (k a)) -> succeeds (bind (call f e) k).
Proof.
  intros Hk s. unfold bind, call. destruct (f (fst s)) as [a w]. apply Hk.
Qed.

Lemma succeeds_for_each {A} (xs : list A) (body : A -> M W unit) :
  (forall x, succeeds (body x)) -> succeeds (for_each xs body).
Proof.
  intros Hbody. induction xs as [|x xs IH]; cbn [for_each].
  - apply succeeds_ret.
  - apply succeeds_seq; [apply Hbody | exact IH].
Qed.

Ltac succeeds_tac :=
  repeat first
    [ apply succeeds_ret | apply succeeds_tell
    | apply succeeds_seq | apply succeeds_ask; intros ?
    | apply succeeds_call; intros ?
    | apply succeeds_for_each; intros ?
    | match goal with
      | |- succeeds (if ?b then _ else _) => destruct b
      | |- succeeds (bind (if ?b then _ else _) _) => destruct b
      | |- succeeds (match ?x with _ => _ end) => destruct x
      end ].

Lemma succeeds_create_entry graph e :
  succeeds (create_entry lib host graph e).
Proof. unfold create_entry, print. succeeds_tac. Qed.

Lemma succeeds_creation_pass graph es :
  succeeds (creation_pass lib host graph es).
Proof.
  unfold creation_pass, print. apply succeeds_seq; [apply succeeds_tell|].
  apply succeeds_for_each. intros e. apply succeeds_create_entry.
Qed.

Lemma succeeds_connect_input graph node_name in_port x :
  succeeds (connect_input lib host graph node_name in_port x).
Proof. unfold connect_input, print. succeeds_tac. Qed.

Lemma succeeds_wire_upstream graph node node_name inputs :
  succeeds (wire_upstream lib host graph node node_name inputs).
Proof.
  unfold wire_upstream, print. destruct (list_truthy inputs).
  - apply succeeds_seq; [apply succeeds_tell|].
    apply succeeds_for_each. intros x. apply succeeds_connect_input.
  - succeeds_tac.
Qed.

Lemma succeeds_wire_downstream graph node node_name outputs :
  succeeds (wire_downstream lib host graph node node_name outputs).
Proof. unfold wire_downstream, print. succeeds_tac. Qed.

Lemma succeeds_wire_node graph node node_name :
  succeeds (wire_node lib host graph node node_name).
Proof.
  unfold wire_node, print.
  destruct (nodeConnections host node_name) as [i o].
  apply succeeds_seq; [apply succeeds_tell|].
  apply succeeds_seq;
    [apply succeeds_wire_upstream | apply succeeds_wire_downstream].
Qed.

Lemma succeeds_run (m : M W unit) (s : St W) :
  succeeds m -> m s = (Ok tt, snd (m s)).
Proof. intros H. specialize (H s). destruct (m s). cbn in *. now subst. Qed.

End Succeeds.

(** ** The edge-wiring pass *)

Section Wiring.
Context {W : Type} (lib : NodeGraphQt W) (host : HostSession).
Local Open Scope py_scope.

Lemma bind_assoc {A B C} (m : M W A) (k : A -> M W B) (h : B -> M W C)
    (s : St W) :
  bind (bind m k) h s = bind m (fun a => bind (k a) h) s.
Proof. unfold bind. destruct (m s) as [[a|e] s1]; reflexivity. Qed.

Lemma bind_ext {A B} (m : M W A) (k k' : A -> M W B) (s : St W) :
  (forall a s', k a s' = k' a s') -> bind m k s = bind m k' s.
Proof.
  intros H. unfold bind. destruct (m s) as [[a|e] s1]; [apply H|reflexivity].
Qed.

Lemma wiring_pass_app recur graph pre post (s : St W) :
  wiring_pass lib host recur graph (pre ++ post) s =
  (wiring_pass lib host recur graph pre ;;;
   wiring_pass lib host recur graph post) s.
Proof.
  revert s. induction pre as [|e pre IH]; intros s; [reflexivity|].
  cbn [app wiring_pass]. rewrite bind_assoc. apply bind_ext.
  intros _ s'. apply IH.
Qed.

Lemma for_each_app {A} (body : A -> M W unit) before after (s : St W) :
  for_each (before ++ after) body s =
  (for_each before body ;;; for_each after body) s.
Proof.
  revert s. induction before as [|x before IH]; intros s; [reflexivity|].
  cbn [app for_each]. rewrite bind_assoc. apply bind_ext.
  intros _ s'. apply IH.
Qed.

(** The entry after [pre] is reached in the state [pre] leaves, and what
    its body logs stays in the log of the whole build. *)
Lemma wire_node_within_build graph pre node_name children post
    (s s1 : St W) node :
  wiring_pass lib host (_build_graph lib host) graph pre
    (snd (creation_pass lib host graph
            (pre ++ (node_name, children) :: post) s)) = (Ok tt, s1) ->
  get_node_by_name lib graph (_stripped_name host node_name) (fst s1)
    = Some node ->
  snd (snd (wire_node lib host graph node node_name s1))
  `prefix_of`
  snd (snd (_build_graph lib host
              (HT (pre ++ (node_name, children) :: post)) graph s)).
Proof.
  intros Hpre Hnode. cbn [_build_graph].
  set (es := pre ++ (node_name, children) :: post) in *.
  unfold bind at 1.
  rewrite (succeeds_run _ _ (succeeds_creation_pass lib host graph es)).
  set (s0 := snd (creation_pass lib host graph es s)) in *.
  etrans; [|apply log_grows_then; intros _; apply log_grows_layout].
  subst es. rewrite wiring_pass_app. unfold bind at 1. rewrite Hpre.
  cbn [wiring_pass].
  etrans; [|apply log_grows_then; intros _; apply log_grows_wiring_pass].
  2:{ apply Forall_forall. intros e _ g. apply log_grows_build_graph. }
  unfold wire_entry. unfold bind at 1. unfold ask at 1. cbn [fst snd].
  rewrite Hnode.
  apply log_grows_then. intros _.
  destruct (dict_truthy children); [|apply log_grows_ret].
  apply log_grows_bind; [apply log_grows_node_expand | intros sub].
  apply log_grows_bind; [apply log_grows_build_graph | intros _].
  apply log_grows_node_collapse.
Qed.

(** C2. In the edge-wiring pass of [_build_graph] on a sub-canvas, an
    entry whose visual node is found, and which has no downstream
    neighbour or a single one in another group, has its output port
    connected to the input of the sub-canvas's first output port node:
    the call is the last thing the entry's wiring does, and it stays in
    the log of the build. *)
Theorem output_boundary_connected graph pre node_name children post
    (s s1 : St W) node inputs outputs output_port others :
  isinstance_SubGraph graph = true ->
  wiring_pass lib host (_build_graph lib host) graph pre
    (snd (creation_pass lib host graph
            (pre ++ (node_name, children) :: post) s)) = (Ok tt, s1) ->
  get_node_by_name lib graph (_stripped_name host node_name) (fst s1)
    = Some node ->
  nodeConnections host node_name = (inputs, outputs) ->
  (outputs = [] \/
   exists o, outputs = [o]
             /\ nodeGroup host o <> nodeGroup host node_name) ->
  get_output_port_nodes lib graph
    (fst (snd ((print (MsgConnections node_name inputs outputs) ;;;
                wire_upstream lib host graph node node_name inputs) s1)))
    = output_port :: others ->
  let s2 := snd ((print (MsgConnections node_name inputs outputs) ;;;
                  wire_upstream lib host graph node node_name inputs) s1) in
  wire_node lib host graph node node_name s1 =
    (Ok tt,
     (connect_to lib (OutputPort node 0) (InputPort output_port 0) (fst s2),
      snd s2 ++ [EPrint (MsgNoOutputs node_name (nodeType host node_name));
                 EConnect (OutputPort node 0) (InputPort output_port 0)]))
  /\ EConnect (OutputPort node 0) (InputPort output_port 0)
     ∈ snd (snd (_build_graph lib host
                   (HT (pre ++ (node_name, children) :: post)) graph s)).
Proof.
  intros Hsub Hpre Hnode Hconn Hout Hports s2.
  assert (Hleaves : leaves_group host node_name outputs = true).
  { destruct Hout as [->|(o & -> & Hne)]; [reflexivity|].
    cbn. unfold py_ne. now rewrite bool_decide_eq_false_2. }
  assert (Hrun : wire_node lib host graph node node_name s1 =
    (Ok tt,
     (connect_to lib (OutputPort node 0) (InputPort output_port 0) (fst s2),
      snd s2 ++ [EPrint (MsgNoOutputs node_name (nodeType host node_name));
                 EConnect (OutputPort node 0) (InputPort output_port 0)]))).
  { unfold wire_node. rewrite Hconn.
    assert (Hup : (print (MsgConnections node_name inputs outputs) ;;;
                   wire_upstream lib host graph node node_name inputs) s1
                  = (Ok tt, s2)).
    { apply succeeds_run. apply succeeds_seq;
        [apply succeeds_tell | apply succeeds_wire_upstream]. }
    fold s2 in Hports. clearbody s2.
    rewrite <- (bind_assoc
                  (print (MsgConnections node_name inputs outputs))
                  (fun _ => wire_upstream lib host graph node node_name
                              inputs)
                  (fun _ => wire_downstream lib host graph node node_name
                              outputs)).
    rewrite (bind_ok _ _ _ _ _ Hup).
    unfold wire_downstream. rewrite Hleaves, Hsub. run_monad.
    rewrite Hports. cbn. rewrite <- app_assoc. reflexivity. }
  split; [exact Hrun|].
  pose proof (wire_node_within_build graph pre node_name children post
                s s1 node Hpre Hnode) as Hin.
  rewrite Hrun in Hin. cbn [snd] in Hin.
  destruct Hin as [rest ->].
  rewrite !elem_of_app. left. right. right. left.
Qed.

(** C6. In the edge-wiring pass of [_build_graph], an entry whose visual
    node is found and which has no upstream neighbour: on a sub-canvas
    with an input port node, the output of the first input port node is
    connected to the node's input, first thing after the entry's debug
    line, and the call stays in the log of the build; on the top-level
    canvas the entry's wiring makes no connection at all. *)
Theorem input_boundary_connected graph pre node_name children post
    (s s1 : St W) node outputs :
  wiring_pass lib host (_build_graph lib host) graph pre
    (snd (creation_pass lib host graph
            (pre ++ (node_name, children) :: post) s)) = (Ok tt, s1) ->
  get_node_by_name lib graph (_stripped_name host node_name) (fst s1)
    = Some node ->
  nodeConnections host node_name = ([], outputs) ->
  (forall input_port others,
      isinstance_SubGraph graph = true ->
      get_input_port_nodes lib graph (fst s1) = input_port :: others ->
      (exists w' rest,
          wire_node lib host graph node node_name s1 =
            (Ok tt,
             (w', snd s1 ++
                EPrint (MsgConnections node_name [] outputs)
                :: EConnect (OutputPort input_port 0) (InputPort node 0)
                :: rest)))
      /\ EConnect (OutputPort input_port 0) (InputPort node 0)
         ∈ snd (snd (_build_graph lib host
                       (HT (pre ++ (node_name, children) :: post))
                       graph s)))
  /\ (isinstance_SubGraph graph = false ->
      wire_node lib host graph node node_name s1 =
        (Ok tt, (fst s1,
                 snd s1 ++ [EPrint (MsgConnections node_name [] outputs)]))).
Proof.
  intros Hpre Hnode Hconn. split.
  - intros input_port others Hsub Hports.
    assert (Hrun : exists w' rest,
      wire_node lib host graph node node_name s1 =
        (Ok tt,
         (w', snd s1 ++
            EPrint (MsgConnections node_name [] outputs)
            :: EConnect (OutputPort input_port 0) (InputPort node 0)
            :: rest))).
    { unfold wire_node. rewrite Hconn.
      unfold wire_upstream. cbn [list_truthy]. rewrite Hsub.
      destruct s1 as [w1 tr1]. run_monad. cbn in Hports. rewrite Hports.
      cbn.
      pose proof (succeeds_wire_downstream lib host graph node node_name
                    outputs) as Hok.
      pose proof (log_grows_wire_downstream lib host graph node node_name
                    outputs) as Hgrow.
      match goal with
      | |- context [wire_downstream _ _ _ _ _ _ ?st] =>
          specialize (Hok st); specialize (Hgrow st);
          destruct (wire_downstream lib host graph node node_name
                      outputs st) as [r [w' tr']]
      end.
      cbn in Hok, Hgrow. subst r. destruct Hgrow as [rest ->].
      exists w', rest. rewrite <- !app_assoc. reflexivity. }
    split; [exact Hrun|].
    destruct Hrun as (w' & rest & Hrun).
    pose proof (wire_node_within_build graph pre node_name children post
                  s s1 node Hpre Hnode) as Hin.
    rewrite Hrun in Hin. cbn [snd] in Hin. destruct Hin as [more ->].
    rewrite !elem_of_app. left. right. right. left.
  - intros Htop. unfold wire_node. rewrite Hconn.
    unfold wire_upstream, wire_downstream. cbn [list_truthy].
    rewrite Htop, andb_false_r. destruct s1 as [w1 tr1]. reflexivity.
Qed.

Lemma bind_run {A B} (m m' : M W A) (k : A -> M W B) (s s' : St W) :
  m s = m' s' -> bind m k s = bind m' k s'.
Proof. intros H. unfold bind. now rewrite H. Qed.

Lemma list_truthy_middle {A} (before after : list A) (x : A) :
  list_truthy (before ++ x :: after) = true.
Proof. destruct before; reflexivity. Qed.

(** C7. In the edge-wiring pass of [_build_graph], take an entry whose
    visual node is found and whose upstream neighbours are [before], then
    [missing], then [after], where the visual node of [missing] is not
    found in the canvas once those before it are wired.  The turn of
    [missing] is one warning: no connection, the widgets as they were,
    nothing raised.  The wiring of the entry then is the wiring of the
    neighbours after it followed by the downstream part, run from the
    state with that warning added; the pass is that, the entry's group
    part, and the pass over the entries after it; and the warning is in
    the log of the build. *)
Theorem missing_input_node_is_skipped graph pre node_name children post
    (s s0 s1 : St W) node before missing after outputs :
  wiring_pass lib host (_build_graph lib host) graph pre
    (snd (creation_pass lib host graph
            (pre ++ (node_name, children) :: post) s)) = (Ok tt, s0) ->
  get_node_by_name lib graph (_stripped_name host node_name) (fst s0)
    = Some node ->
  nodeConnections host node_name = (before ++ missing :: after, outputs) ->
  for_each before
           (connect_input lib host graph node_name (InputPort node 0))
           (fst s0,
            snd s0 ++
              [EPrint (MsgConnections node_name
                         (before ++ missing :: after) outputs);
               EPrint (MsgConnectingInputs node_name
                         (before ++ missing :: after))])
    = (Ok tt, s1) ->
  get_node_by_name lib graph (_stripped_name host missing) (fst s1)
    = None ->
  let s2 := (fst s1,
             snd s1 ++ [EPrint (MsgInputNotFound missing node_name)]) in
  let rest_of_wiring :=
    for_each after
             (connect_input lib host graph node_name (InputPort node 0)) ;;;
    wire_downstream lib host graph node node_name outputs in
  let group_part :=
    if dict_truthy children then
      let* sub_graph := node_expand lib node in
      _build_graph lib host children sub_graph ;;;
      node_collapse lib node
    else ret tt in
  connect_input lib host graph node_name (InputPort node 0) missing s1
    = (Ok tt, s2)
  /\ wire_node lib host graph node node_name s0 = rest_of_wiring s2
  /\ wiring_pass lib host (_build_graph lib host) graph
       (pre ++ (node_name, children) :: post)
       (snd (creation_pass lib host graph
               (pre ++ (node_name, children) :: post) s))
     = (rest_of_wiring ;;; group_part ;;;
        wiring_pass lib host (_build_graph lib host) graph post) s2
  /\ EPrint (MsgInputNotFound missing node_name)
     ∈ snd (snd (_build_graph lib host
                   (HT (pre ++ (node_name, children) :: post)) graph s)).
Proof.
  intros Hpre Hnode Hconn Hbefore Hmissing s2 rest_of_wiring group_part.
  set (connect := connect_input lib host graph node_name (InputPort node 0))
    in *.
  assert (Hone : connect missing s1 = (Ok tt, s2)).
  { unfold connect, connect_input. run_monad. now rewrite Hmissing. }
  assert (Hwire : wire_node lib host graph node node_name s0
                  = rest_of_wiring s2).
  { assert (Hstart :
      wire_node lib host graph node node_name s0
      = bind (for_each (before ++ missing :: after) connect)
             (fun _ => wire_downstream lib host graph node node_name outputs)
             (fst s0,
              snd s0 ++
                [EPrint (MsgConnections node_name
                           (before ++ missing :: after) outputs);
                 EPrint (MsgConnectingInputs node_name
                           (before ++ missing :: after))])).
    { unfold wire_node. rewrite Hconn. unfold wire_upstream.
      rewrite list_truthy_middle. unfold bind, print, tell. cbn [fst snd].
      rewrite <- app_assoc. reflexivity. }
    rewrite Hstart.
    rewrite (bind_run _ _ _ _ _ (for_each_app connect before
                                   (missing :: after) _)).
    rewrite bind_assoc, (bind_ok _ _ _ _ _ Hbefore).
    cbn [for_each]. rewrite bind_assoc, (bind_ok _ _ _ _ _ Hone).
    reflexivity. }
  split; [exact Hone|]. split; [exact Hwire|]. split.
  - rewrite wiring_pass_app, (bind_ok _ _ _ _ _ Hpre). cbn [wiring_pass].
    assert (Hentry :
      wire_entry lib host (_build_graph lib host) graph
        (node_name, children) s0
      = bind (wire_node lib host graph node node_name)
             (fun _ => group_part) s0).
    { unfold wire_entry. unfold bind at 1. unfold ask at 1.
      cbn [fst snd]. rewrite Hnode. reflexivity. }
    rewrite (bind_run _ _ _ _ _ Hentry), bind_assoc.
    rewrite (bind_run _ _ _ _ _ Hwire). reflexivity.
  - pose proof (wire_node_within_build graph pre node_name children post
                  s s0 node Hpre Hnode) as Hin.
    rewrite Hwire in Hin.
    assert (Hgrow : snd s2 `prefix_of` snd (snd (rest_of_wiring s2))).
    { apply (log_grows_bind (W:=W)).
      - apply log_grows_for_each. intros x.
        apply log_grows_connect_input.
      - intros _. apply log_grows_wire_downstream. }
    destruct Hgrow as [more Hmore]. destruct Hin as [tail ->].
    rewrite Hmore. cbn [s2 snd]. rewrite !elem_of_app. left. left. right.
    left.
Qed.

(** C10. In the edge-wiring pass, an entry whose own visual node is not
    found under its display name is passed over: its turn leaves the
    widgets and the log as they were (no edge, no boundary connection,
    no expansion, no build of its children), and the pass goes on with
    the entries after it. *)
Theorem unresolved_entry_is_skipped recur graph pre e post (s s1 : St W) :
  wiring_pass lib host recur graph pre s = (Ok tt, s1) ->
  get_node_by_name lib graph (_stripped_name host (fst e)) (fst s1)
    = None ->
  wire_entry lib host recur graph e s1 = (Ok tt, s1)
  /\ wiring_pass lib host recur graph (pre ++ e :: post) s =
     wiring_pass lib host recur graph post s1.
Proof.
  intros Hpre Hnone.
  assert (Hskip : wire_entry lib host recur graph e s1 = (Ok tt, s1)).
  { unfold wire_entry. run_monad. now rewrite Hnone. }
  split; [exact Hskip|].
  rewrite wiring_pass_app. unfold bind at 1. rewrite Hpre.
  cbn [wiring_pass]. unfold bind at 1. now rewrite Hskip.
Qed.

End Wiring.

(** ** Hierarchies as values *)

Section TreeFacts.
Implicit Types (t : HierarchyTree) (p target : string -> bool).

Lemma sum_cons (x : nat) (l : list nat) :
  list_sum (x :: l) = x + list_sum l.
Proof. reflexivity. Qed.

Lemma count_keys_root_append p n t :
  count_keys p (root_append n t)
  = count_keys p t + (if p n then 1 else 0).
Proof.
  destruct t as [es]. unfold root_append. cbn [entries count_keys].
  rewrite map_app, list_sum_app. cbn. lia.
Qed.

Lemma count_keys_append_under p target n t :
  count_keys p (append_under target n t)
  = count_keys p t + (if p n then count_keys target t else 0).
Proof.
  induction t as [es IH] using HierarchyTree_ind.
  cbn [append_under count_keys]. rewrite map_map. cbn [fst snd].
  induction IH as [|e es He _ IHes]; cbn [map list_sum].
  - destruct (p n); reflexivity.
  - rewrite !sum_cons, IHes.
    destruct (target (fst e)).
    + rewrite count_keys_root_append, He. destruct (p n); lia.
    + rewrite He. destruct (p n); lia.
Qed.

Lemma count_keys_never t : count_keys (fun _ => false) t = 0.
Proof.
  induction t as [es IH] using HierarchyTree_ind. cbn [count_keys].
  induction IH as [|e es He _ IHes]; cbn [map]; [reflexivity|].
  rewrite sum_cons, He, IHes. reflexivity.
Qed.

Lemma has_key_root_append m n t :
  has_key m (root_append n t) = has_key m t || String.eqb n m.
Proof.
  destruct t as [es]. unfold has_key, root_append. cbn [entries].
  rewrite existsb_app. cbn. now rewrite orb_false_r.
Qed.

Lemma has_key_append_under m target n t :
  has_key m (append_under target n t) = has_key m t.
Proof.
  destruct t as [es]. unfold has_key. cbn [append_under entries].
  induction es as [|e es IH]; cbn; [reflexivity | now rewrite IH].
Qed.

Lemma is_child_of_root_append g m n t :
  is_child_of g m (root_append n t) = is_child_of g m t.
Proof.
  destruct t as [es]. unfold root_append.
  cbn [entries is_child_of]. rewrite existsb_app. cbn.
  now rewrite andb_false_r, orb_false_r.
Qed.

Lemma is_child_of_append_under g m target n t :
  is_child_of g m t = true ->
  is_child_of g m (append_under target n t) = true.
Proof.
  induction t as [es IH] using HierarchyTree_ind.
  cbn [append_under is_child_of]. rewrite !existsb_exists.
  intros (e & Hin & He).
  exists (fst e, if target (fst e)
                 then root_append n (append_under target n (snd e))
                 else append_under target n (snd e)).
  split.
  { apply in_map_iff. exists e. split; [reflexivity | exact Hin]. }
  cbn [fst snd]. rewrite Forall_forall in IH.
  apply list_elem_of_In in Hin. specialize (IH e Hin).
  apply orb_true_iff in He as [He|He].
  - apply andb_true_iff in He as [Hk Hm]. rewrite Hk. cbn [andb].
    destruct (target (fst e));
      rewrite ?has_key_root_append, has_key_append_under, Hm; reflexivity.
  - apply orb_true_iff. right.
    destruct (target (fst e));
      rewrite ?is_child_of_root_append; now apply IH.
Qed.

Lemma is_child_of_new g n t :
  0 < occurrences g t ->
  is_child_of g n (append_under (fun k => String.eqb k g) n t) = true.
Proof.
  unfold occurrences.
  induction t as [es IH] using HierarchyTree_ind.
  cbn [append_under is_child_of count_keys].
  induction IH as [|e es He _ IHes]; cbn [map existsb fst snd];
    [cbn; lia|].
  rewrite sum_cons. intros Hpos. apply orb_true_iff.
  destruct (String.eqb (fst e) g) eqn:Hk.
  - left. cbn [andb]. rewrite has_key_root_append, String.eqb_refl.
    now rewrite orb_true_r.
  - destruct (Nat.eq_dec (count_keys (fun k => String.eqb k g) (snd e)) 0)
      as [Hz|Hnz].
    + right. apply IHes. lia.
    + left. cbn [andb orb]. apply He. lia.
Qed.

End TreeFacts.

(** ** The store behind [get_rv_hierarchy] *)

Section StoreFacts.

Lemma dict_setitem_fresh (d : pydict) (k : string) (v : loc) :
  (forall v', (k, v') ∉ d) -> dict_setitem d k v = d ++ [(k, v)].
Proof.
  induction d as [|[k' v'] d IH]; intros Hfresh; cbn; [reflexivity|].
  destruct (String.eqb k' k) eqn:Hk.
  - apply String.eqb_eq in Hk as ->. destruct (Hfresh v'). left.
  - rewrite IH; [reflexivity|]. intros v'' Hin. apply (Hfresh v''). now right.
Qed.

Lemma dict_getitem_fresh (d : pydict) (k : string) (v : loc) :
  (forall v', (k, v') ∉ d) -> dict_getitem (d ++ [(k, v)]) k = Some v.
Proof.
  induction d as [|[k' v'] d IH]; intros Hfresh; cbn.
  - now rewrite String.eqb_refl.
  - destruct (String.eqb k' k) eqn:Hk.
    + apply String.eqb_eq in Hk as ->. destruct (Hfresh v'). left.
    + apply IH. intros v'' Hin. apply (Hfresh v''). now right.
Qed.


Lemma put_length objs ref d n : length (put objs ref d n) = S (length objs).
Proof. unfold put. rewrite length_insert, length_app. cbn. lia. Qed.

Lemma put_lookup_eq objs ref d n :
  ref < length objs ->
  put objs ref d n !! ref = Some (d ++ [(n, length objs)]).
Proof.
  intros H. unfold put. apply list_lookup_insert_eq.
  rewrite length_app. cbn. lia.
Qed.

Lemma put_lookup_ne objs ref d n l :
  l <> ref -> l < length objs -> put objs ref d n !! l = objs !! l.
Proof.
  intros Hne Hl. unfold put. rewrite list_lookup_insert_ne by congruence.
  now apply lookup_app_l.
Qed.

Lemma put_lookup_new objs ref d n :
  ref < length objs -> put objs ref d n !! length objs = Some [].
Proof.
  intros H. unfold put. rewrite list_lookup_insert_ne by lia.
  rewrite lookup_app_r by lia. now rewrite Nat.sub_diag.
Qed.

Lemma reify_empty depth (objs : store) l :
  objs !! l = Some [] -> reify depth objs l = HT [].
Proof. intros H. destruct depth; cbn; [reflexivity | now rewrite H]. Qed.

Lemma reify_put (objs : store) ref d n (target : string -> bool) :
  (forall l dl k l',
      objs !! l = Some dl -> (k, l') ∈ dl ->
      l < l' < length objs /\ (target k = true <-> l' = ref)) ->
  objs !! ref = Some d ->
  forall depth l,
    l < length objs -> length objs <= depth + l ->
    reify depth (put objs ref d n) l =
      (if decide (l = ref) then root_append n else id)
        (append_under target n (reify depth objs l)).
Proof.
  intros Hent Href.
  assert (Hlt : ref < length objs) by (eapply lookup_lt_Some; eauto).
  induction depth as [|depth IH]; intros l Hl Hdepth; [lia|].
  destruct (lookup_lt_is_Some_2 objs l Hl) as [dl Hdl].
  assert (Hmap :
    map (fun e => (fst e, reify depth (put objs ref d n) (snd e))) dl =
    map (fun e =>
           (fst e,
            if target (fst e)
            then root_append n (append_under target n (snd e))
            else append_under target n (snd e)))
        (map (fun e => (fst e, reify depth objs (snd e))) dl)).
  { rewrite map_map. apply map_ext_in. intros [k l'] Hin. cbn [fst snd].
    apply list_elem_of_In in Hin.
    destruct (Hent l dl k l' Hdl Hin) as [[Hlo Hhi] Htarget].
    rewrite IH by lia. f_equal.
    destruct (decide (l' = ref)) as [Heq|Hne].
    - apply Htarget in Heq. now rewrite Heq.
    - destruct (target k) eqn:Hk; [|reflexivity].
      destruct Hne. now apply Htarget. }
  cbn [reify]. rewrite Hdl. cbn [from_option id append_under].
  destruct (decide (l = ref)) as [->|Hne].
  - rewrite put_lookup_eq by exact Hlt. cbn [from_option id].
    rewrite Href in Hdl. injection Hdl as ->.
    rewrite map_app, Hmap. cbn [map fst snd].
    rewrite (reify_empty depth _ _ (put_lookup_new objs ref dl n Hlt)).
    reflexivity.
  - rewrite put_lookup_ne by assumption. rewrite Hdl.
    cbn [from_option id]. now rewrite Hmap.
Qed.

End StoreFacts.

(** ** The loop of [get_rv_hierarchy] *)

Section HierarchyFacts.
Context (host : HostSession).


Lemma store_ok_fresh_key objs idx ref d n :
  store_ok objs idx -> objs !! ref = Some d -> idx !! n = None ->
  forall v, (n, v) ∉ d.
Proof.
  intros Hok Href Hn v Hin.
  destruct (ok_entries _ _ Hok ref d n v Href Hin) as [_ Hidx]. congruence.
Qed.

Lemma store_ok_put objs idx ref d n :
  store_ok objs idx -> objs !! ref = Some d -> idx !! n = None ->
  store_ok (put objs ref d n) (<[n := length objs]> idx).
Proof.
  intros Hok Href Hn.
  assert (Hlt : ref < length objs) by (eapply lookup_lt_Some; eauto).
  pose proof (ok_root _ _ Hok) as Hroot.
  split.
  - intros l dl k l' Hdl Hin. rewrite put_length.
    destruct (decide (l = ref)) as [->|Hne].
    + rewrite put_lookup_eq in Hdl by exact Hlt. injection Hdl as <-.
      apply elem_of_app in Hin as [Hin|Hin].
      * destruct (ok_entries _ _ Hok ref d k l' Href Hin) as [Hb Hidx].
        split; [lia|]. rewrite lookup_insert_ne; [exact Hidx|congruence].
      * apply list_elem_of_singleton in Hin. injection Hin as -> ->.
        split; [lia | apply lookup_insert_eq].
    + assert (Hl : l < S (length objs)).
      { rewrite <- (put_length objs ref d n). eapply lookup_lt_Some; eauto. }
      destruct (decide (l = length objs)) as [->|Hne'].
      * rewrite put_lookup_new in Hdl by exact Hlt. injection Hdl as <-.
        inversion Hin.
      * rewrite put_lookup_ne in Hdl by lia.
        destruct (ok_entries _ _ Hok l dl k l' Hdl Hin) as [Hb Hidx].
        split; [lia|]. rewrite lookup_insert_ne; [exact Hidx|congruence].
  - intros k1 k2 l H1 H2.
    destruct (decide (n = k1)) as [<-|Hn1];
      destruct (decide (n = k2)) as [<-|Hn2]; [reflexivity|..].
    + rewrite lookup_insert_eq in H1. injection H1 as <-.
      rewrite lookup_insert_ne in H2 by exact Hn2.
      apply (ok_range _ _ Hok) in H2. lia.
    + rewrite lookup_insert_eq in H2. injection H2 as <-.
      rewrite lookup_insert_ne in H1 by exact Hn1.
      apply (ok_range _ _ Hok) in H1. lia.
    + rewrite lookup_insert_ne in H1 by exact Hn1.
      rewrite lookup_insert_ne in H2 by exact Hn2.
      exact (ok_inj _ _ Hok k1 k2 l H1 H2).
  - intros k l Hk. rewrite put_length.
    destruct (decide (n = k)) as [<-|Hnk].
    + rewrite lookup_insert_eq in Hk. injection Hk as <-. lia.
    + rewrite lookup_insert_ne in Hk by exact Hnk.
      apply (ok_range _ _ Hok) in Hk. lia.
  - rewrite put_length. lia.
Qed.

Lemma store_setitem_put (objs : store) ref d n :
  objs !! ref = Some d -> (forall v, (n, v) ∉ d) ->
  store_setitem (objs ++ [[]]) ref n (length objs) = put objs ref d n
  /\ store_getitem (put objs ref d n) ref n = Ok (length objs).
Proof.
  intros Href Hfresh.
  assert (Hlt : ref < length objs) by (eapply lookup_lt_Some; eauto).
  split.
  - unfold store_setitem, put. rewrite lookup_app_l by exact Hlt.
    rewrite Href. now rewrite dict_setitem_fresh.
  - unfold store_getitem. rewrite put_lookup_eq by exact Hlt.
    now rewrite dict_getitem_fresh.
Qed.

Lemma truthy_group (n : string) :
  PyStr.truthy (nodeGroup host n) = true ->
  nodeGroup host n = Some (default EmptyString (nodeGroup host n)).
Proof. destruct (nodeGroup host n); [reflexivity | discriminate]. Qed.


Lemma hier_inv_start : hier_inv host [] (mkHier [[]] ∅) (HT []).
Proof.
  split; cbn.
  - split; cbn; try lia.
    + intros l d k l' Hd Hin. destruct l; [|destruct l; discriminate].
      injection Hd as <-. inversion Hin.
    + intros k1 k2 l H. rewrite lookup_empty in H. discriminate.
    + intros k l H. rewrite lookup_empty in H. discriminate.
  - intros k. rewrite lookup_empty. split; [inversion 1|].
    intros [x Hx]. discriminate.
  - intros [|depth] _; reflexivity.
  - intros m. reflexivity.
  - intros m Hm. inversion Hm.
Qed.

(** An assignment [ref[n] = {}] for a new name keeps the invariant, when
    the hierarchy changes as [t'] says. *)
Lemma hier_inv_put seen st t n ref d t' :
  hier_inv host seen st t ->
  n ∉ seen ->
  objs st !! ref = Some d ->
  (forall depth, S (length (objs st)) <= depth ->
                 reify depth (put (objs st) ref d n) 0 = t') ->
  (forall m, occurrences m t'
             = occurrences m t + (if String.eqb n m then 1 else 0)) ->
  (forall m, placed host m t -> placed host m t') ->
  placed host n t' ->
  hier_inv host (seen ++ [n])
           (mkHier (put (objs st) ref d n)
                   (<[n := length (objs st)]> (all_nodes_map st))) t'.
Proof.
  intros Hinv Hn Href Hval Hocc Hmono Hnew.
  assert (Hnone : all_nodes_map st !! n = None).
  { apply eq_None_not_Some. intros H. apply Hn.
    now apply (inv_seen _ _ _ _ Hinv). }
  split; cbn [objs all_nodes_map].
  - apply store_ok_put; [apply (inv_store _ _ _ _ Hinv) | exact Href
                         | exact Hnone].
  - intros k. rewrite elem_of_app, list_elem_of_singleton.
    rewrite lookup_insert_is_Some. rewrite (inv_seen _ _ _ _ Hinv k).
    split.
    + intros [H| ->]; [|now left].
      destruct (decide (n = k)); [now left | now right].
    + intros [->|[_ H]]; [now right | now left].
  - intros depth Hdepth. apply Hval. now rewrite put_length in Hdepth.
  - intros m. rewrite Hocc, (inv_once _ _ _ _ Hinv m).
    destruct (String.eqb n m) eqn:Hnm.
    + apply String.eqb_eq in Hnm as <-.
      rewrite bool_decide_eq_false_2 by exact Hn.
      rewrite bool_decide_eq_true_2; [reflexivity|].
      apply elem_of_app. right. left.
    + apply String.eqb_neq in Hnm.
      destruct (bool_decide (m ∈ seen)) eqn:Hm.
      * apply bool_decide_eq_true_1 in Hm.
        rewrite bool_decide_eq_true_2; [lia|]. apply elem_of_app. now left.
      * apply bool_decide_eq_false_1 in Hm.
        rewrite bool_decide_eq_false_2; [lia|].
        rewrite elem_of_app, list_elem_of_singleton. intros [H| ->]; tauto.
  - intros m Hm. apply elem_of_app in Hm as [Hm|Hm].
    + apply Hmono. now apply (inv_placed _ _ _ _ Hinv).
    + apply list_elem_of_singleton in Hm as ->. exact Hnew.
Qed.

Lemma hier_inv_step seen st t n :
  hier_inv host seen st t ->
  n ∉ seen ->
  (PyStr.truthy (nodeGroup host n) = true ->
   default EmptyString (nodeGroup host n) ∈ seen) ->
  exists st' t',
    hierarchy_step host 0 st n = Ok st' /\ hier_inv host (seen ++ [n]) st' t'.
Proof.
  intros Hinv Hn Hparent.
  pose proof (inv_store _ _ _ _ Hinv) as Hok.
  assert (Hnone : all_nodes_map st !! n = None).
  { apply eq_None_not_Some. intros H. apply Hn.
    now apply (inv_seen _ _ _ _ Hinv). }
  unfold hierarchy_step.
  destruct (PyStr.truthy (nodeGroup host n)) eqn:Htruthy; cbn [negb].
  - (* the node has a parent group *)
    set (g := default EmptyString (nodeGroup host n)) in *.
    specialize (Hparent eq_refl).
    destruct (proj1 (inv_seen _ _ _ _ Hinv g) Hparent) as [ref Hg].
    rewrite Hg. unfold alloc_dict.
    destruct (ok_range _ _ Hok g ref Hg) as [Hpos Hlt].
    destruct (lookup_lt_is_Some_2 (objs st) ref Hlt) as [d Href].
    pose proof (store_ok_fresh_key _ _ _ _ _ Hok Href Hnone) as Hfresh.
    destruct (store_setitem_put (objs st) ref d n Href Hfresh)
      as [Hset Hget].
    rewrite Hset, Hget.
    eexists _, (append_under (fun k => String.eqb k g) n t).
    split; [reflexivity|].
    apply (hier_inv_put seen st t n ref d _ Hinv Hn Href).
    + intros depth Hdepth.
      rewrite (reify_put (objs st) ref d n (fun k => String.eqb k g));
        try assumption; try lia.
      * destruct (decide (0 = ref)) as [Hz|_]; [lia|]. cbn [id].
        rewrite (inv_value _ _ _ _ Hinv) by lia. reflexivity.
      * intros l dl k l' Hdl Hin.
        destruct (ok_entries _ _ Hok l dl k l' Hdl Hin) as [Hb Hidx].
        split; [exact Hb|]. rewrite String.eqb_eq. split.
        -- intros ->. congruence.
        -- intros ->. exact (ok_inj _ _ Hok k g ref Hidx Hg).
    + intros m. unfold occurrences at 1.
      rewrite count_keys_append_under.
      fold (occurrences m t). fold (occurrences g t).
      rewrite (inv_once _ _ _ _ Hinv g).
      rewrite bool_decide_eq_true_2 by exact Hparent. reflexivity.
    + intros m. unfold placed.
      destruct (PyStr.truthy (nodeGroup host m)).
      * apply is_child_of_append_under.
      * now rewrite has_key_append_under.
    + unfold placed. rewrite Htruthy. fold g. apply is_child_of_new.
      rewrite (inv_once _ _ _ _ Hinv g).
      rewrite bool_decide_eq_true_2 by exact Hparent. lia.
  - (* the node is a root entry *)
    unfold alloc_dict.
    pose proof (ok_root _ _ Hok) as Hroot.
    destruct (lookup_lt_is_Some_2 (objs st) 0 Hroot) as [d Href].
    pose proof (store_ok_fresh_key _ _ _ _ _ Hok Href Hnone) as Hfresh.
    destruct (store_setitem_put (objs st) 0 d n Href Hfresh)
      as [Hset Hget].
    rewrite Hset, Hget.
    eexists _, (root_append n (append_under (fun _ => false) n t)).
    split; [reflexivity|].
    apply (hier_inv_put seen st t n 0 d _ Hinv Hn Href).
    + intros depth Hdepth.
      rewrite (reify_put (objs st) 0 d n (fun _ => false));
        try assumption; try lia.
      * destruct (decide (0 = 0)) as [_|Hz]; [|congruence].
        rewrite (inv_value _ _ _ _ Hinv) by lia. reflexivity.
      * intros l dl k l' Hdl Hin.
        destruct (ok_entries _ _ Hok l dl k l' Hdl Hin) as [Hb Hidx].
        split; [exact Hb|]. split; [discriminate | lia].
    + intros m. unfold occurrences.
      rewrite count_keys_root_append, count_keys_append_under.
      rewrite count_keys_never. destruct (String.eqb n m); lia.
    + intros m. unfold placed.
      destruct (PyStr.truthy (nodeGroup host m)).
      * rewrite is_child_of_root_append. apply is_child_of_append_under.
      * rewrite has_key_root_append, has_key_append_under.
        intros ->. reflexivity.
    + unfold placed. rewrite Htruthy.
      rewrite has_key_root_append, String.eqb_refl. apply orb_true_r.
Qed.

Lemma hier_inv_loop names :
  forall seen st t,
    hier_inv host seen st t ->
    NoDup (seen ++ names) ->
    parents_first_from host seen names = true ->
    exists st' t',
      hierarchy_loop host 0 st names = Ok st'
      /\ hier_inv host (seen ++ names) st' t'.
Proof.
  induction names as [|n names IH]; intros seen st t Hinv Hnodup Hfirst.
  - exists st, t. rewrite app_nil_r. split; [reflexivity | exact Hinv].
  - cbn [parents_first_from] in Hfirst.
    apply andb_true_iff in Hfirst as [Hparent Hrest].
    assert (Hn : n ∉ seen).
    { apply NoDup_app in Hnodup as (_ & Hdisj & _). intros Hin.
      apply (Hdisj n Hin). left. }
    destruct (hier_inv_step seen st t n Hinv Hn) as (st1 & t1 & Hstep & Hinv1).
    { intros Htruthy. rewrite Htruthy in Hparent.
      now apply bool_decide_eq_true_1 in Hparent. }
    cbn [hierarchy_loop]. rewrite Hstep.
    destruct (IH (seen ++ [n]) st1 t1 Hinv1) as (st' & t' & Hloop & Hinv').
    + now rewrite <- app_assoc.
    + exact Hrest.
    + exists st', t'. split; [exact Hloop|].
      now rewrite <- app_assoc in Hinv'.
Qed.

Lemma parents_first_from_index seen names :
  (forall i n,
      names !! i = Some n ->
      PyStr.truthy (nodeGroup host n) = true ->
      exists j, j < length seen + i
                /\ (seen ++ names) !! j = nodeGroup host n) ->
  parents_first_from host seen names = true.
Proof.
  revert seen. induction names as [|n names IH]; intros seen Hidx;
    [reflexivity|].
  cbn [parents_first_from]. apply andb_true_iff. split.
  - destruct (PyStr.truthy (nodeGroup host n)) eqn:Htruthy; [|reflexivity].
    apply bool_decide_eq_true_2.
    destruct (Hidx 0 n eq_refl Htruthy) as (j & Hj & Hlook).
    rewrite lookup_app_l in Hlook by lia.
    rewrite (truthy_group n Htruthy) in Hlook.
    eapply list_elem_of_lookup_2. exact Hlook.
  - apply IH. intros i m Hm Htruthy.
    destruct (Hidx (S i) m Hm Htruthy) as (j & Hj & Hlook).
    exists j. rewrite length_app. cbn [length]. split; [lia|].
    now rewrite <- app_assoc.
Qed.

End HierarchyFacts.

(** C1. For an enumeration of distinct node names in which the parent
    group of every node is listed before the node, [get_rv_hierarchy]
    returns a nested mapping in which every listed name is a key exactly
    once: among the keys of the root when the node has no parent group,
    among the keys of the value stored under its parent group otherwise.
    No other name is a key. *)
Theorem hierarchy_has_every_node_once (host : HostSession) :
  NoDup (nodes host) ->
  parents_first host ->
  exists t,
    get_rv_hierarchy host = Ok t
    /\ (forall n, n ∈ nodes host ->
          occurrences n t = 1
          /\ (PyStr.truthy (nodeGroup host n) = false -> has_key n t = true)
          /\ (forall g, nodeGroup host n = Some g -> g <> "" ->
                        is_child_of g n t = true))
    /\ (forall n, n ∉ nodes host -> occurrences n t = 0).
Proof.
  intros Hnodup Hfirst.
  destruct (hier_inv_loop host (nodes host) [] (mkHier [[]] ∅) (HT []))
    as (st & t & Hloop & Hinv).
  - apply hier_inv_start.
  - exact Hnodup.
  - apply parents_first_from_index. intros i n Hn Htruthy.
    destruct (Hfirst i n Hn Htruthy) as (j & Hj & Hlook).
    exists j. split; [cbn; lia | exact Hlook].
  - cbn [app] in Hinv.
    exists t. split; [|split].
    + unfold get_rv_hierarchy, get_rv_hierarchy_store, alloc_dict.
      cbn [length app]. rewrite Hloop.
      now rewrite (inv_value _ _ _ _ Hinv).
    + intros n Hn. split; [|split].
      * rewrite (inv_once _ _ _ _ Hinv n).
        now rewrite bool_decide_eq_true_2.
      * intros Hfalsy. pose proof (inv_placed _ _ _ _ Hinv n Hn) as Hp.
        unfold placed in Hp. now rewrite Hfalsy in Hp.
      * intros g Hg Hne. pose proof (inv_placed _ _ _ _ Hinv n Hn) as Hp.
        unfold placed in Hp. rewrite Hg in Hp.
        apply truthy_Some_iff in Hne. now rewrite Hne in Hp.
    + intros n Hn. rewrite (inv_once _ _ _ _ Hinv n).
      now rewrite bool_decide_eq_false_2.
Qed.

(** Distinct names are needed: when a group's name is listed again after
    one of its members, the second [root_nodes[name] = {}] replaces the
    dictionary the member was put in, and the member is not in the
    result. *)
Example hierarchy_of_repeated_name :
  parents_first repeated_host
  /\ get_rv_hierarchy repeated_host = Ok (HT [("stack", HT [])])
  /\ get_rv_hierarchy_store repeated_host
     = Ok ([[("stack", 3)]; [("stack_t1", 2)]; []; []], 0).
Proof.
  split; [|split; reflexivity].
  intros i n Hn Htruthy.
  destruct i as [|[|[|i]]]; cbn in Hn; try discriminate;
    injection Hn as <-; try discriminate.
  exists 0. split; [lia | reflexivity].
Qed.

(** ** A parent that was not indexed *)

Section Unindexed.
Context (host : HostSession).

Lemma dict_getitem_setitem (d : pydict) (k : string) (v : loc) :
  dict_getitem (dict_setitem d k v) k = Some v.
Proof.
  induction d as [|[k' v'] d IH]; cbn.
  - now rewrite String.eqb_refl.
  - destruct (String.eqb k' k) eqn:Hk; cbn; now rewrite Hk.
Qed.

Lemma store_getitem_setitem (objs : store) ref k v :
  ref < length objs ->
  store_getitem (store_setitem objs ref k v) ref k = Ok v
  /\ length (store_setitem objs ref k v) = length objs.
Proof.
  intros Hlt. destruct (lookup_lt_is_Some_2 objs ref Hlt) as [d Hd].
  unfold store_setitem, store_getitem. rewrite Hd.
  rewrite list_lookup_insert_eq by exact Hlt.
  rewrite dict_getitem_setitem, length_insert. now split.
Qed.


Lemma index_ok_insert seen st n ref k v :
  index_ok seen st ->
  ref < length (objs st) ->
  index_ok (seen ++ [n])
    (mkHier (store_setitem (objs st ++ [[]]) ref k v)
            (<[n := length (objs st)]> (all_nodes_map st))).
Proof.
  intros (Hseen & Hrange & Hroot) Href.
  assert (Hlen : length (store_setitem (objs st ++ [[]]) ref k v)
                 = S (length (objs st))).
  { assert (Href' : ref < length (objs st ++ [[]]))
      by (rewrite length_app; cbn; lia).
    rewrite (proj2 (store_getitem_setitem _ ref k v Href')).
    rewrite length_app. cbn. lia. }
  split; [|split]; cbn [objs all_nodes_map]; rewrite ?Hlen; try lia.
  - intros m. rewrite elem_of_app, list_elem_of_singleton.
    rewrite lookup_insert_is_Some, (Hseen m). split.
    + intros [H| ->]; [|now left].
      destruct (decide (n = m)); [now left | now right].
    + intros [->|[_ H]]; [now right | now left].
  - intros m l Hm. destruct (decide (n = m)) as [<-|Hne].
    + rewrite lookup_insert_eq in Hm. injection Hm as <-. lia.
    + rewrite lookup_insert_ne in Hm by exact Hne.
      apply Hrange in Hm. lia.
Qed.

Lemma hierarchy_step_index seen st n :
  index_ok seen st ->
  if PyStr.truthy (nodeGroup host n)
     && negb (bool_decide (default EmptyString (nodeGroup host n) ∈ seen))
  then hierarchy_step host 0 st n
       = Raise (KeyError (default EmptyString (nodeGroup host n)))
  else exists st', hierarchy_step host 0 st n = Ok st'
                   /\ index_ok (seen ++ [n]) st'.
Proof.
  intros Hok. pose proof Hok as (Hseen & Hrange & Hroot).
  unfold hierarchy_step, alloc_dict.
  destruct (PyStr.truthy (nodeGroup host n)) eqn:Htruthy; cbn [negb andb].
  - set (g := default EmptyString (nodeGroup host n)).
    destruct (bool_decide (g ∈ seen)) eqn:Hg; cbn [negb].
    + apply bool_decide_eq_true_1 in Hg.
      destruct (proj1 (Hseen g) Hg) as [ref Href]. rewrite Href.
      pose proof (Hrange g ref Href) as Hlt.
      rewrite (proj1 (store_getitem_setitem (objs st ++ [[]]) ref n
                        (length (objs st)) ltac:(rewrite length_app; lia))).
      eexists. split; [reflexivity|]. now apply index_ok_insert.
    + apply bool_decide_eq_false_1 in Hg.
      assert (Hnone : all_nodes_map st !! g = None).
      { apply eq_None_not_Some. intros H. apply Hg. now apply Hseen. }
      now rewrite Hnone.
  - rewrite (proj1 (store_getitem_setitem (objs st ++ [[]]) 0 n
                      (length (objs st)) ltac:(rewrite length_app; lia))).
    eexists. split; [reflexivity|]. now apply index_ok_insert.
Qed.

Lemma hierarchy_loop_violation names :
  forall seen st,
    index_ok seen st ->
    parents_first_from host seen names = false ->
    exists before n after st',
      names = before ++ n :: after
      /\ PyStr.truthy (nodeGroup host n) = true
      /\ hierarchy_loop host 0 st before = Ok st'
      /\ all_nodes_map st' !! default EmptyString (nodeGroup host n) = None
      /\ hierarchy_loop host 0 st names
         = Raise (KeyError (default EmptyString (nodeGroup host n))).
Proof.
  induction names as [|n names IH]; intros seen st Hok Hviol;
    [discriminate|].
  cbn [parents_first_from] in Hviol.
  pose proof (hierarchy_step_index seen st n Hok) as Hstep.
  destruct (PyStr.truthy (nodeGroup host n)
            && negb (bool_decide
                       (default EmptyString (nodeGroup host n) ∈ seen)))
    eqn:Hbad.
  - apply andb_true_iff in Hbad as [Htruthy Hg].
    apply negb_true_iff, bool_decide_eq_false_1 in Hg.
    exists [], n, names, st. cbn [app hierarchy_loop]. rewrite Hstep.
    repeat split; try assumption.
    apply eq_None_not_Some. intros H. apply Hg.
    now apply (proj1 Hok).
  - destruct Hstep as (st1 & Hstep & Hok1).
    assert (Hrest : parents_first_from host (seen ++ [n]) names = false).
    { destruct (PyStr.truthy (nodeGroup host n)); cbn [andb negb] in *;
        [|exact Hviol].
      apply negb_false_iff in Hbad. now rewrite Hbad in Hviol. }
    destruct (IH _ _ Hok1 Hrest)
      as (before & m & after & st' & -> & Hm & Hbefore & Hnone & Hloop).
    exists (n :: before), m, after, st'. cbn [app hierarchy_loop].
    rewrite Hstep. repeat split; assumption.
Qed.

Lemma parents_first_from_take seen names :
  parents_first_from host seen names = true ->
  forall i n,
    names !! i = Some n ->
    PyStr.truthy (nodeGroup host n) = true ->
    default EmptyString (nodeGroup host n) ∈ seen ++ take i names.
Proof.
  revert seen. induction names as [|m names IH]; intros seen Hfirst i n Hn Ht;
    [discriminate|].
  cbn [parents_first_from] in Hfirst.
  apply andb_true_iff in Hfirst as [Hhead Hrest].
  destruct i as [|i]; cbn in Hn.
  - injection Hn as ->. rewrite Ht in Hhead.
    apply bool_decide_eq_true_1 in Hhead. cbn. now rewrite app_nil_r.
  - specialize (IH _ Hrest i n Hn Ht). cbn [take].
    now rewrite <- app_assoc in IH.
Qed.

Lemma index_ok_start : index_ok [] (mkHier [[]] ∅).
Proof.
  split; [|split]; cbn; try lia.
  - intros k. rewrite lookup_empty. split; [inversion 1|].
    intros [x Hx]. discriminate.
  - intros k l H. rewrite lookup_empty in H. discriminate.
Qed.

End Unindexed.

(** C4. When the enumeration breaks the ordering contract (some node has a
    parent group that is not among the names listed before it),
    [get_rv_hierarchy] raises: the [KeyError] of the parent group of the
    first such node, which is not in [all_nodes_map] when the node is
    processed.  Nothing catches it: [build_graph] ends with the same
    exception, the canvas cleared and nothing built. *)
Theorem unindexed_parent_aborts_build (host : HostSession) (i : nat)
    (n : string) :
  nodes host !! i = Some n ->
  PyStr.truthy (nodeGroup host n) = true ->
  default EmptyString (nodeGroup host n) ∉ take i (nodes host) ->
  exists before m after st,
    nodes host = before ++ m :: after
    /\ PyStr.truthy (nodeGroup host m) = true
    /\ hierarchy_loop host 0 (mkHier [[]] ∅) before = Ok st
    /\ all_nodes_map st !! default EmptyString (nodeGroup host m) = None
    /\ get_rv_hierarchy host
       = Raise (KeyError (default EmptyString (nodeGroup host m)))
    /\ forall W (lib : NodeGraphQt W) graph (s : St W),
         build_graph lib host graph s
         = (Raise (KeyError (default EmptyString (nodeGroup host m))),
            (clear_session lib graph (fst s), snd s ++ [EClearSession graph])).
Proof.
  intros Hn Htruthy Hnot.
  assert (Hviol : parents_first_from host [] (nodes host) = false).
  { destruct (parents_first_from host [] (nodes host)) eqn:Hfirst;
      [|reflexivity].
    destruct Hnot.
    exact (parents_first_from_take host [] (nodes host) Hfirst i n Hn Htruthy). }
  destruct (hierarchy_loop_violation host (nodes host) [] (mkHier [[]] ∅)
              (index_ok_start) Hviol)
    as (before & m & after & st & Hsplit & Hm & Hbefore & Hnone & Hloop).
  exists before, m, after, st.
  assert (Hraise : get_rv_hierarchy host
                   = Raise (KeyError (default EmptyString (nodeGroup host m)))).
  { unfold get_rv_hierarchy, get_rv_hierarchy_store, alloc_dict.
    cbn [length app]. now rewrite Hloop. }
  repeat split; try assumption.
  intros W lib graph s. unfold build_graph. run_monad. now rewrite Hraise.
Qed.


(** ** The theorems at work on the sample sessions *)

Lemma parents_first_from_true (host : HostSession) :
  parents_first_from host [] (nodes host) = true -> parents_first host.
Proof.
  intros Hfirst i n Hn Htruthy.
  pose proof (parents_first_from_take host [] (nodes host) Hfirst i n Hn
                Htruthy) as Hin.
  cbn [app] in Hin. apply list_elem_of_lookup_1 in Hin as [j Hj].
  exists j. pose proof (lookup_lt_Some _ _ _ Hj) as Hlt.
  rewrite length_take in Hlt. split; [lia|].
  rewrite lookup_take_lt in Hj by lia.
  now rewrite (truthy_group host n Htruthy).
Qed.

Lemma hierarchy_has_every_node_once_witness :
  exists t,
    get_rv_hierarchy demo_host = Ok t
    /\ (forall n, n ∈ nodes demo_host ->
          occurrences n t = 1
          /\ (PyStr.truthy (nodeGroup demo_host n) = false ->
              has_key n t = true)
          /\ (forall g, nodeGroup demo_host n = Some g -> g <> "" ->
                        is_child_of g n t = true))
    /\ (forall n, n ∉ nodes demo_host -> occurrences n t = 0).
Proof.
  apply (hierarchy_has_every_node_once demo_host).
  - apply (bool_decide_unpack _). vm_compute. exact I.
  - apply parents_first_from_true. vm_compute. reflexivity.
Defined.

Lemma unindexed_parent_aborts_build_witness :
  exists before m after st,
    nodes unordered_host = before ++ m :: after
    /\ PyStr.truthy (nodeGroup unordered_host m) = true
    /\ hierarchy_loop unordered_host 0 (mkHier [[]] ∅) before = Ok st
    /\ all_nodes_map st !! default EmptyString (nodeGroup unordered_host m)
       = None
    /\ get_rv_hierarchy unordered_host
       = Raise (KeyError (default EmptyString (nodeGroup unordered_host m)))
    /\ forall W (lib : NodeGraphQt W) graph (s : St W),
         build_graph lib unordered_host graph s
         = (Raise (KeyError
                     (default EmptyString (nodeGroup unordered_host m))),
            (clear_session lib graph (fst s), snd s ++ [EClearSession graph])).
Proof.
  apply (unindexed_parent_aborts_build unordered_host 0 "stack_t1").
  - reflexivity.
  - reflexivity.
  - cbn. inversion 1.
Defined.

Lemma output_boundary_connected_witness :
  EConnect (OutputPort 3 0) (InputPort 2 0)
  ∈ snd (snd (_build_graph SimpleCanvas.plain demo_host
                (HT sequence_children) (SubGraph 0) sequence_canvas)).
Proof.
  refine (proj2 (output_boundary_connected SimpleCanvas.plain demo_host
            (SubGraph 0) [] "defaultSequence_sequence" (HT []) []
            sequence_canvas _ 3 ["sourceGroup000000"] ["viewGroup"] 2 []
            _ _ _ _ _ _)).
  - reflexivity.
  - reflexivity.
  - vm_compute. reflexivity.
  - reflexivity.
  - right. exists "viewGroup". split; [reflexivity|]. vm_compute. discriminate.
  - vm_compute. reflexivity.
Defined.

Lemma input_boundary_connected_witness :
  EConnect (OutputPort 1 0) (InputPort 3 0)
  ∈ snd (snd (_build_graph SimpleCanvas.plain demo_host
                (HT source_children) (SubGraph 0) source_canvas)).
Proof.
  refine (proj2 (proj1 (input_boundary_connected SimpleCanvas.plain demo_host
            (SubGraph 0) [] "sourceGroup000000_source" (HT [])
            [("sourceGroup000000_cache", HT [])]
            source_canvas _ 3 ["sourceGroup000000_cache"] _ _ _)
            1 [] _ _)).
  - reflexivity.
  - vm_compute. reflexivity.
  - reflexivity.
  - reflexivity.
  - vm_compute. reflexivity.
Defined.

Lemma missing_input_node_is_skipped_witness :
  EPrint (MsgInputNotFound "outsider" "seq_c")
  ∈ snd (snd (_build_graph SimpleCanvas.plain mixed_host (HT mixed_children)
                (SubGraph 0) mixed_canvas)).
Proof.
  refine (proj2 (proj2 (proj2
    (missing_input_node_is_skipped SimpleCanvas.plain mixed_host (SubGraph 0)
       [("seq_a", HT []); ("seq_b", HT [])] "seq_c" (HT []) []
       mixed_canvas _ _ 5 ["seq_a"] "outsider" ["seq_b"] [] _ _ _ _ _)))).
  - vm_compute. reflexivity.
  - vm_compute. reflexivity.
  - reflexivity.
  - vm_compute. reflexivity.
  - vm_compute. reflexivity.
Defined.

Lemma expand_group_node_only_when_collapsed_witness :
  expand_group_node SimpleCanvas.plain (NodeGraph 0) 0 sequence_canvas
  = (Ok tt, sequence_canvas).
Proof.
  refine (proj1 (proj1 (expand_group_node_only_when_collapsed
            SimpleCanvas.plain (NodeGraph 0) 0 sequence_canvas _) _)).
  - vm_compute. reflexivity.
  - vm_compute. reflexivity.
Defined.

Lemma unresolved_entry_is_skipped_witness :
  wire_entry SimpleCanvas.trimming blank_host
    (_build_graph SimpleCanvas.trimming blank_host) (NodeGraph 0)
    (" lonely", HT []) blank_created
  = (Ok tt, blank_created).
Proof.
  refine (proj1 (unresolved_entry_is_skipped SimpleCanvas.trimming blank_host
            (_build_graph SimpleCanvas.trimming blank_host) (NodeGraph 0)
            [] (" lonely", HT []) [] blank_created blank_created _ _)).
  - reflexivity.
  - vm_compute. reflexivity.
Defined.

(* ================================================================== *)
(** * Further properties *)
(* ================================================================== *)

Lemma string_app_assoc (a b c : string) : (a +:+ b) +:+ c = a +:+ (b +:+ c).
Proof.
  induction a as [|x a IH]; [reflexivity|].
  change (String x ((a +:+ b) +:+ c) = String x (a +:+ (b +:+ c))).
  now f_equal.
Qed.

Lemma contains_extend (kw ty pre post : string) :
  PyStr.contains kw ty = true ->
  PyStr.contains kw (pre +:+ ty +:+ post) = true.
Proof.
  rewrite !contains_iff. intros (a & b & ->).
  exists (pre +:+ a), (b +:+ post).
  now rewrite !string_app_assoc.
Qed.

Lemma keyword_gives_color (kw ty : string) :
  kw ∈ color_keywords -> PyStr.contains kw ty = true ->
  get_node_color (Some ty) <> (100, 100, 100)%Z.
Proof.
  intros Hkw Hc.
  assert (Ht : PyStr.truthy (Some ty) = true).
  { destruct ty; [|reflexivity]. unfold color_keywords in Hkw.
    repeat (apply elem_of_cons in Hkw as [->|Hkw]; [discriminate|]).
    inversion Hkw. }
  rewrite get_node_color_truthy by exact Ht.
  unfold color_keywords in Hkw.
  repeat (apply elem_of_cons in Hkw as [->|Hkw];
          [rewrite ?Hc, ?orb_true_r;
           repeat match goal with
                  | |- context [if ?b then _ else _] =>
                      destruct b; try discriminate
                  end; discriminate|]).
  inversion Hkw.
Qed.

Lemma no_keyword_gives_neutral (ty : string) :
  (forall kw, kw ∈ color_keywords -> PyStr.contains kw ty = false) ->
  get_node_color (Some ty) = (100, 100, 100)%Z.
Proof.
  intros Hno. destruct (PyStr.truthy (Some ty)) eqn:Ht.
  - rewrite get_node_color_truthy by exact Ht.
    rewrite !Hno; [reflexivity|..]; unfold color_keywords;
      repeat first [left | right].
  - destruct ty; [reflexivity | discriminate].
Qed.

Lemma some_keyword_or_none (ty : string) :
  (exists kw, kw ∈ color_keywords /\ PyStr.contains kw ty = true)
  \/ (forall kw, kw ∈ color_keywords -> PyStr.contains kw ty = false).
Proof.
  unfold color_keywords.
  induction ["Source"; "LUT"; "Filter"; "View"; "Display"; "Sequence";
             "Stack"; "Layout"; "Group"] as [|k ks IH].
  - right. intros kw Hin. inversion Hin.
  - destruct (PyStr.contains k ty) eqn:Hk.
    + left. exists k. split; [left | exact Hk].
    + destruct IH as [(kw & Hin & Hc)|Hno].
      * left. exists kw. split; [now right | exact Hc].
      * right. intros kw Hin. apply elem_of_cons in Hin as [->|Hin];
          [exact Hk | now apply Hno].
Qed.

(** X1. [get_node_color] gives the neutral (100, 100, 100) exactly when
    the type is absent or none of the nine keywords occurs in it: no rule
    colour is the neutral one. *)
Theorem get_node_color_neutral_iff (node_type : option string) :
  get_node_color node_type = (100, 100, 100)%Z
  <-> (forall ty kw, node_type = Some ty -> kw ∈ color_keywords ->
                     PyStr.contains kw ty = false).
Proof.
  destruct node_type as [ty|].
  - split.
    + intros Hneutral ty' kw Heq Hkw. injection Heq as <-.
      destruct (PyStr.contains kw ty) eqn:Hc; [|reflexivity].
      now destruct (keyword_gives_color kw ty Hkw Hc).
    + intros Hno. apply no_keyword_gives_neutral. intros kw Hkw.
      now apply (Hno ty kw).
  - split; [intros _ ty kw Heq; discriminate | reflexivity].
Qed.

(** X2. A type string that is classified (not neutral) stays classified
    when text is put before and after it. *)
Theorem get_node_color_classified_stays_classified (ty pre post : string) :
  get_node_color (Some ty) <> (100, 100, 100)%Z ->
  get_node_color (Some (pre +:+ ty +:+ post)) <> (100, 100, 100)%Z.
Proof.
  intros Hclassified.
  destruct (some_keyword_or_none ty) as [(kw & Hkw & Hc)|Hno].
  - apply (keyword_gives_color kw); [exact Hkw|].
    now apply contains_extend.
  - destruct Hclassified. now apply no_keyword_gives_neutral.
Qed.

Lemma get_node_color_classified_stays_classified_witness :
  get_node_color (Some ("RV" +:+ "LUT" +:+ "Pipeline")) <> (100, 100, 100)%Z.
Proof.
  apply (get_node_color_classified_stays_classified "LUT" "RV" "Pipeline").
  vm_compute. discriminate.
Defined.

Lemma slice_from_suffix (k : nat) (s : string) :
  exists pre, s = pre +:+ PyStr.slice_from k s
              /\ String.length pre = Nat.min k (String.length s).
Proof.
  revert s. induction k as [|k IH]; intros s.
  - exists "". split; [reflexivity | reflexivity].
  - destruct s as [|c s].
    + exists "". split; reflexivity.
    + destruct (IH s) as (pre & Hs & Hlen).
      exists (String c pre). cbn [PyStr.slice_from]. split.
      * change (String c s = String c (pre +:+ PyStr.slice_from k s)).
        now f_equal.
      * cbn [String.length]. rewrite Hlen. reflexivity.
Qed.

Lemma string_length_app (a b : string) :
  String.length (a +:+ b) = String.length a + String.length b.
Proof.
  induction a as [|x a IH]; [reflexivity|].
  change (S (String.length (a +:+ b)) = S (String.length a + String.length b)).
  now f_equal.
Qed.

(** X3. The display name is always a suffix of the host name, hence never
    longer; when something was removed, the node has a non-empty group that
    its name starts with, and what was removed is the group's name and one
    more character (the whole name, when it is that short). *)
Theorem stripped_name_is_suffix (host : HostSession) (node_name : string) :
  exists pre,
    node_name = pre +:+ _stripped_name host node_name
    /\ String.length (_stripped_name host node_name)
       <= String.length node_name
    /\ (pre <> "" ->
        exists g, nodeGroup host node_name = Some g /\ g <> ""
                  /\ PyStr.startswith node_name g = true
                  /\ String.length pre
                     = Nat.min (String.length g + 1) (String.length node_name)).
Proof.
  unfold _stripped_name.
  destruct (PyStr.truthy (nodeGroup host node_name)
            && PyStr.startswith node_name
                 (default "" (nodeGroup host node_name))) eqn:Hstrip.
  - apply andb_true_iff in Hstrip as [Htruthy Hstart].
    destruct (nodeGroup host node_name) as [g|]; [|discriminate].
    cbn [from_option id] in *.
    destruct (slice_from_suffix (PyStr.len g + 1) node_name)
      as (pre & Hname & Hlen).
    exists pre. split; [exact Hname|]. split.
    + rewrite Hname at 2. rewrite string_length_app. lia.
    + intros _. exists g. repeat split; try assumption.
      now apply truthy_Some_iff.
  - exists "". split; [reflexivity|]. split; [lia|]. congruence.
Qed.

(** X4. The character after the group's name is dropped whatever it is:
    two members of one group whose names differ only in that character get
    the same display name. *)
Theorem stripped_name_ignores_separator (host : HostSession)
    (g : string) (c1 c2 : ascii) (rest : string) :
  g <> "" ->
  nodeGroup host (g +:+ String c1 rest) = Some g ->
  nodeGroup host (g +:+ String c2 rest) = Some g ->
  _stripped_name host (g +:+ String c1 rest) = rest
  /\ _stripped_name host (g +:+ String c2 rest) = rest.
Proof.
  intros Hne H1 H2. apply truthy_Some_iff in Hne.
  assert (Hstrip : forall c,
    nodeGroup host (g +:+ String c rest) = Some g ->
    _stripped_name host (g +:+ String c rest) = rest).
  { intros c Hg. unfold _stripped_name. rewrite Hg. cbn [from_option id].
    rewrite Hne.
    assert (Hp : PyStr.startswith (g +:+ String c rest) g = true)
      by (apply prefix_app_iff; eauto).
    rewrite Hp. cbn [andb]. apply slice_from_succ_app. }
  split; now apply Hstrip.
Qed.

Lemma stripped_name_ignores_separator_witness :
  _stripped_name twin_host "grp_a" = "a"
  /\ _stripped_name twin_host "grp.a" = "a".
Proof.
  apply (stripped_name_ignores_separator twin_host "grp" "_" "." "a").
  - discriminate.
  - reflexivity.
  - reflexivity.
Defined.

(** Mode *)
Lemma accessors_agree (p : Process) : theMode p = createMode p.
Proof.
  unfold theMode, createMode. destruct (g_the_mode p) eqn:Hg; cbn.
  - now rewrite Hg.
  - reflexivity.
Qed.

Lemma createMode_sets (p : Process) :
  exists obj, fst (createMode p) = Some obj
              /\ g_the_mode (snd (createMode p)) = Some obj.
Proof.
  unfold createMode. destruct (g_the_mode p) as [obj|] eqn:Hg; cbn.
  - exists obj. now rewrite Hg.
  - eexists. split; reflexivity.
Qed.

Lemma createMode_set (p : Process) (obj : nat) :
  g_the_mode p = Some obj -> createMode p = (Some obj, p).
Proof. intros Hg. unfold createMode. rewrite Hg. cbn. now rewrite Hg. Qed.

(** X8. From any state of the process, the first call of an accessor
    returns an object, and every later call of either accessor returns
    that object and leaves the process as it is; [theMode] and
    [createMode] are the same function of the state. *)
Theorem accessors_idempotent (p : Process) (first : Accessor)
    (later : list Accessor) :
  exists obj,
    fst (call_accessor first p) = Some obj
    /\ call_accessors later (snd (call_accessor first p))
       = (map (fun _ => Some obj) later, snd (call_accessor first p))
    /\ theMode p = createMode p.
Proof.
  assert (Hfirst : call_accessor first p = createMode p)
    by (destruct first; [reflexivity | apply accessors_agree]).
  destruct (createMode_sets p) as (obj & Hret & Hset).
  exists obj. rewrite Hfirst. split; [exact Hret|]. split;
    [|apply accessors_agree].
  set (p1 := snd (createMode p)) in *. clearbody p1.
  induction later as [|a later IH]; [reflexivity|].
  cbn [call_accessors map].
  assert (Ha : call_accessor a p1 = (Some obj, p1)).
  { destruct a; cbn [call_accessor]; rewrite ?accessors_agree;
      now apply createMode_set. }
  rewrite Ha, IH. reflexivity.
Qed.

(** X9. Whatever calls the host makes from the start, the notice of the
    mode's creation is printed once, by the first. *)
Theorem creation_notice_printed_once (calls : list Accessor) :
  stdout (snd (call_accessors calls process_start))
  = match calls with [] => [] | _ :: _ => [MsgCreatingMode] end.
Proof.
  destruct calls as [|a calls]; [reflexivity|].
  cbn [call_accessors].
  assert (Ha : call_accessor a process_start
               = (Some 0, mkProcess (Some 0)
                            [mkMode "rv_node_graph_viz_qt_v4" None]
                            [MsgCreatingMode]))
    by (destruct a; reflexivity).
  rewrite Ha.
  set (p1 := mkProcess (Some 0) [mkMode "rv_node_graph_viz_qt_v4" None]
                       [MsgCreatingMode]).
  assert (Hstay : forall l, snd (call_accessors l p1) = p1).
  { induction l as [|b l IH]; [reflexivity|]. cbn [call_accessors].
    assert (Hb : call_accessor b p1 = (Some 0, p1))
      by (destruct b; reflexivity).
    rewrite Hb. destruct (call_accessors l p1) as [rs p2] eqn:Hl.
    cbn in IH |- *. exact IH. }
  specialize (Hstay calls).
  destruct (call_accessors calls p1) as [rs p2]. cbn in Hstay |- *.
  now subst p2.
Qed.

Lemma append_under_nowhere (n : string) (t : HierarchyTree) :
  append_under (fun _ => false) n t = t.
Proof.
  induction t as [es IH] using HierarchyTree_ind. cbn [append_under]. f_equal.
  induction IH as [|[k c] es He _ IHes]; [reflexivity|].
  cbn [map fst snd] in *. now rewrite He, IHes.
Qed.

Section Shape.
Context (host : HostSession).

Lemma hier_inv_step_insert seen st t n :
  hier_inv host seen st t ->
  n ∉ seen ->
  (PyStr.truthy (nodeGroup host n) = true ->
   default EmptyString (nodeGroup host n) ∈ seen) ->
  exists st',
    hierarchy_step host 0 st n = Ok st'
    /\ hier_inv host (seen ++ [n]) st' (insert_node host t n).
Proof.
  intros Hinv Hn Hparent.
  pose proof (inv_store _ _ _ _ Hinv) as Hok.
  assert (Hnone : all_nodes_map st !! n = None).
  { apply eq_None_not_Some. intros H. apply Hn.
    now apply (inv_seen _ _ _ _ Hinv). }
  unfold hierarchy_step, insert_node, alloc_dict.
  destruct (PyStr.truthy (nodeGroup host n)) eqn:Htruthy; cbn [negb].
  - set (g := default EmptyString (nodeGroup host n)) in *.
    specialize (Hparent eq_refl).
    destruct (proj1 (inv_seen _ _ _ _ Hinv g) Hparent) as [ref Hg].
    rewrite Hg.
    destruct (ok_range _ _ Hok g ref Hg) as [Hpos Hlt].
    destruct (lookup_lt_is_Some_2 (objs st) ref Hlt) as [d Href].
    pose proof (store_ok_fresh_key _ _ _ _ _ Hok Href Hnone) as Hfresh.
    destruct (store_setitem_put (objs st) ref d n Href Hfresh) as [Hset Hget].
    rewrite Hset, Hget. eexists. split; [reflexivity|].
    pose proof (inv_once _ _ _ _ Hinv g) as Hg1.
    rewrite bool_decide_eq_true_2 in Hg1 by exact Hparent.
    apply (hier_inv_put host seen st t n ref d _ Hinv Hn Href).
    + intros depth Hdepth.
      rewrite (reify_put (objs st) ref d n (fun k => String.eqb k g));
        try assumption; try lia.
      * destruct (decide (0 = ref)) as [Hz|_]; [lia|]. cbn [id].
        now rewrite (inv_value _ _ _ _ Hinv) by lia.
      * intros l dl k l' Hdl Hin.
        destruct (ok_entries _ _ Hok l dl k l' Hdl Hin) as [Hb Hidx].
        split; [exact Hb|]. rewrite String.eqb_eq. split.
        -- intros ->. congruence.
        -- intros ->. exact (ok_inj _ _ Hok k g ref Hidx Hg).
    + intros m. unfold occurrences at 1. rewrite count_keys_append_under.
      fold (occurrences m t). fold (occurrences g t). now rewrite Hg1.
    + intros m. unfold placed. destruct (PyStr.truthy (nodeGroup host m)).
      * apply is_child_of_append_under.
      * now rewrite has_key_append_under.
    + unfold placed. rewrite Htruthy. fold g. apply is_child_of_new.
      rewrite Hg1. lia.
  - pose proof (ok_root _ _ Hok) as Hroot.
    destruct (lookup_lt_is_Some_2 (objs st) 0 Hroot) as [d Href].
    pose proof (store_ok_fresh_key _ _ _ _ _ Hok Href Hnone) as Hfresh.
    destruct (store_setitem_put (objs st) 0 d n Href Hfresh) as [Hset Hget].
    rewrite Hset, Hget. eexists. split; [reflexivity|].
    apply (hier_inv_put host seen st t n 0 d _ Hinv Hn Href).
    + intros depth Hdepth.
      rewrite (reify_put (objs st) 0 d n (fun _ => false));
        try assumption; try lia.
      * destruct (decide (0 = 0)) as [_|Hz]; [|congruence].
        rewrite (inv_value _ _ _ _ Hinv) by lia.
        now rewrite append_under_nowhere.
      * intros l dl k l' Hdl Hin.
        destruct (ok_entries _ _ Hok l dl k l' Hdl Hin) as [Hb Hidx].
        split; [exact Hb|]. split; [discriminate | lia].
    + intros m. unfold occurrences. rewrite count_keys_root_append.
      reflexivity.
    + intros m. unfold placed. destruct (PyStr.truthy (nodeGroup host m)).
      * now rewrite is_child_of_root_append.
      * rewrite has_key_root_append. intros ->. reflexivity.
    + unfold placed. rewrite Htruthy.
      rewrite has_key_root_append, String.eqb_refl. apply orb_true_r.
Qed.

Lemma hierarchy_loop_insert names :
  forall seen st t,
    hier_inv host seen st t ->
    NoDup (seen ++ names) ->
    parents_first_from host seen names = true ->
    exists st',
      hierarchy_loop host 0 st names = Ok st'
      /\ hier_inv host (seen ++ names) st'
           (fold_left (insert_node host) names t).
Proof.
  induction names as [|n names IH]; intros seen st t Hinv Hnodup Hfirst.
  - exists st. rewrite app_nil_r. split; [reflexivity | exact Hinv].
  - cbn [parents_first_from] in Hfirst.
    apply andb_true_iff in Hfirst as [Hparent Hrest].
    assert (Hn : n ∉ seen).
    { apply NoDup_app in Hnodup as (_ & Hdisj & _). intros Hin.
      apply (Hdisj n Hin). left. }
    destruct (hier_inv_step_insert seen st t n Hinv Hn) as (st1 & Hstep & Hinv1).
    { intros Htruthy. rewrite Htruthy in Hparent.
      now apply bool_decide_eq_true_1 in Hparent. }
    cbn [hierarchy_loop fold_left]. rewrite Hstep.
    destruct (IH (seen ++ [n]) st1 _ Hinv1) as (st' & Hloop & Hinv').
    + now rewrite <- app_assoc.
    + exact Hrest.
    + exists st'. split; [exact Hloop|]. now rewrite <- app_assoc in Hinv'.
Qed.

Lemma get_rv_hierarchy_insertion :
  NoDup (nodes host) -> parents_first host ->
  get_rv_hierarchy host = Ok (hierarchy_by_insertion host).
Proof.
  intros Hnodup Hfirst.
  destruct (hierarchy_loop_insert (nodes host) [] (mkHier [[]] ∅) (HT []))
    as (st & Hloop & Hinv).
  - apply hier_inv_start.
  - exact Hnodup.
  - apply parents_first_from_index. intros i n Hn Htruthy.
    destruct (Hfirst i n Hn Htruthy) as (j & Hj & Hlook).
    exists j. split; [cbn; lia | exact Hlook].
  - unfold get_rv_hierarchy, get_rv_hierarchy_store, alloc_dict.
    cbn [length app]. rewrite Hloop.
    now rewrite (inv_value _ _ _ _ Hinv).
Qed.

(** Keys of the root *)
Lemma keys_root_append n t : keys (root_append n t) = keys t ++ [n].
Proof. destruct t as [es]. unfold keys, root_append. cbn. now rewrite map_app. Qed.

Lemma keys_append_under target n t : keys (append_under target n t) = keys t.
Proof.
  destruct t as [es]. unfold keys. cbn [append_under entries].
  rewrite map_map. reflexivity.
Qed.

Lemma keys_fold_insert names t :
  keys (fold_left (insert_node host) names t)
  = keys t ++ filter (fun n => PyStr.truthy (nodeGroup host n) = false) names.
Proof.
  revert t. induction names as [|n names IH]; intros t; cbn [fold_left].
  - now rewrite app_nil_r.
  - rewrite IH. unfold insert_node.
    destruct (PyStr.truthy (nodeGroup host n)) eqn:Ht.
    + rewrite keys_append_under. rewrite filter_cons_False; [reflexivity|].
      congruence.
    + rewrite keys_root_append, <- app_assoc.
      rewrite filter_cons_True by exact Ht. reflexivity.
Qed.

(** Children of a group *)
Lemma children_names_root_append g n t :
  children_names g (root_append n t) = children_names g t.
Proof.
  destruct t as [es]. unfold root_append. cbn [entries children_names].
  rewrite flat_map_app. cbn. destruct (String.eqb n g); cbn;
    now rewrite app_nil_r.
Qed.

Lemma children_names_absent g t :
  occurrences g t = 0 -> children_names g t = [].
Proof.
  unfold occurrences. induction t as [es IH] using HierarchyTree_ind.
  cbn [count_keys children_names].
  induction IH as [|e es He _ IHes]; cbn [map flat_map]; [reflexivity|].
  rewrite sum_cons. intros Hsum.
  destruct (String.eqb (fst e) g); [lia|].
  rewrite He by lia. rewrite IHes by lia. reflexivity.
Qed.

Lemma children_names_append_other g g' n t :
  g' <> g ->
  children_names g (append_under (fun k => String.eqb k g') n t)
  = children_names g t.
Proof.
  intros Hne. induction t as [es IH] using HierarchyTree_ind.
  cbn [append_under children_names].
  induction IH as [|e es He _ IHes]; cbn [map flat_map fst snd];
    [reflexivity|].
  rewrite IHes. f_equal.
  destruct (String.eqb (fst e) g') eqn:Hk.
  - apply String.eqb_eq in Hk.
    assert (Hg : String.eqb (fst e) g = false)
      by (apply String.eqb_neq; congruence).
    rewrite Hg. cbn [app]. now rewrite children_names_root_append.
  - rewrite He, keys_append_under. reflexivity.
Qed.

Lemma children_names_append_same g n t :
  occurrences g t <= 1 ->
  children_names g (append_under (fun k => String.eqb k g) n t)
  = children_names g t ++ (if Nat.eqb (occurrences g t) 1 then [n] else []).
Proof.
  unfold occurrences. induction t as [es IH] using HierarchyTree_ind.
  cbn [append_under children_names count_keys].
  induction IH as [|e es He _ IHes]; cbn [map flat_map fst snd];
    [reflexivity|].
  rewrite sum_cons. intros Hsum.
  destruct (String.eqb (fst e) g) eqn:Hk.
  - assert (Hc : count_keys (fun k => String.eqb k g) (snd e) = 0) by lia.
    assert (Hrest : list_sum (map (fun e0 =>
               (if String.eqb (fst e0) g then 1 else 0)
               + count_keys (fun k => String.eqb k g) (snd e0)) es) = 0)
      by lia.
    rewrite IHes by lia. rewrite Hc, Hrest. cbn [Nat.add Nat.eqb].
    rewrite children_names_root_append, keys_root_append, keys_append_under.
    rewrite He by lia. rewrite Hc. cbn [Nat.eqb].
    rewrite (children_names_absent g (snd e)) by exact Hc.
    rewrite !app_nil_r.
    assert (Hnone : flat_map (fun e0 =>
               (if String.eqb (fst e0) g then keys (snd e0) else [])
               ++ children_names g (snd e0)) es = []).
    { change (children_names g (HT es) = []). apply children_names_absent.
      exact Hrest. }
    rewrite Hnone. now rewrite !app_nil_r.
  - cbn [app Nat.add]. rewrite He by lia. rewrite IHes by lia.
    destruct (Nat.eq_dec (count_keys (fun k => String.eqb k g) (snd e)) 1)
      as [Hc|Hc].
    + assert (Hrest : list_sum (map (fun e0 =>
               (if String.eqb (fst e0) g then 1 else 0)
               + count_keys (fun k => String.eqb k g) (snd e0)) es) = 0)
        by lia.
      rewrite Hc, Hrest. cbn [Nat.add Nat.eqb].
      assert (Hnone : flat_map (fun e0 =>
                 (if String.eqb (fst e0) g then keys (snd e0) else [])
                 ++ children_names g (snd e0)) es = []).
      { change (children_names g (HT es) = []). apply children_names_absent.
        exact Hrest. }
      rewrite Hnone. now rewrite !app_nil_r.
    + assert (Hc0 : count_keys (fun k => String.eqb k g) (snd e) = 0) by lia.
      rewrite Hc0. cbn [Nat.eqb Nat.add]. now rewrite app_nil_r, app_assoc.
Qed.

Lemma children_names_insert seen st t n g :
  hier_inv host seen st t ->
  (PyStr.truthy (nodeGroup host n) = true ->
   default EmptyString (nodeGroup host n) ∈ seen) ->
  children_names g (insert_node host t n)
  = children_names g t ++ (if member_of host g n then [n] else []).
Proof.
  intros Hinv Hparent. unfold insert_node, member_of.
  destruct (PyStr.truthy (nodeGroup host n)) eqn:Htruthy; cbn [andb].
  - specialize (Hparent eq_refl).
    set (g' := default EmptyString (nodeGroup host n)) in *.
    destruct (String.eqb g' g) eqn:Hg.
    + apply String.eqb_eq in Hg as <-.
      pose proof (inv_once _ _ _ _ Hinv g') as Hone.
      rewrite bool_decide_eq_true_2 in Hone by exact Hparent.
      rewrite children_names_append_same by lia. now rewrite Hone.
    + apply String.eqb_neq in Hg.
      rewrite children_names_append_other by exact Hg.
      now rewrite app_nil_r.
  - rewrite children_names_root_append. now rewrite app_nil_r.
Qed.

Lemma children_names_loop names :
  forall seen st t g,
    hier_inv host seen st t ->
    NoDup (seen ++ names) ->
    parents_first_from host seen names = true ->
    children_names g (fold_left (insert_node host) names t)
    = children_names g t
      ++ filter (fun n => member_of host g n = true) names.
Proof.
  induction names as [|n names IH]; intros seen st t g Hinv Hnodup Hfirst.
  - cbn. now rewrite app_nil_r.
  - cbn [parents_first_from] in Hfirst.
    apply andb_true_iff in Hfirst as [Hparent Hrest].
    assert (Hn : n ∉ seen).
    { apply NoDup_app in Hnodup as (_ & Hdisj & _). intros Hin.
      apply (Hdisj n Hin). left. }
    assert (Hp : PyStr.truthy (nodeGroup host n) = true ->
                 default EmptyString (nodeGroup host n) ∈ seen).
    { intros Htruthy. rewrite Htruthy in Hparent.
      now apply bool_decide_eq_true_1 in Hparent. }
    destruct (hier_inv_step_insert seen st t n Hinv Hn Hp)
      as (st1 & Hstep & Hinv1).
    cbn [fold_left].
    rewrite (IH (seen ++ [n]) st1 _ g Hinv1); [|now rewrite <- app_assoc
                                               |exact Hrest].
    rewrite (children_names_insert seen st t n g Hinv Hp).
    rewrite <- app_assoc. f_equal.
    destruct (member_of host g n) eqn:Hm.
    + now rewrite filter_cons_True by exact Hm.
    + rewrite filter_cons_False; [reflexivity|]. congruence.
Qed.

End Shape.


Lemma hierarchy_loop_index_ok (host : HostSession) names :
  forall seen st,
    index_ok seen st ->
    parents_first_from host seen names = true ->
    exists st', hierarchy_loop host 0 st names = Ok st'.
Proof.
  induction names as [|n names IH]; intros seen st Hok Hfirst.
  - exists st. reflexivity.
  - cbn [parents_first_from] in Hfirst.
    apply andb_true_iff in Hfirst as [Hparent Hrest].
    pose proof (hierarchy_step_index host seen st n Hok) as Hstep.
    assert (Hgood : PyStr.truthy (nodeGroup host n)
                    && negb (bool_decide
                               (default EmptyString (nodeGroup host n) ∈ seen))
                    = false).
    { destruct (PyStr.truthy (nodeGroup host n)); [|reflexivity].
      now rewrite Hparent. }
    rewrite Hgood in Hstep. destruct Hstep as (st1 & Hstep & Hok1).
    cbn [hierarchy_loop]. rewrite Hstep. exact (IH _ _ Hok1 Hrest).
Qed.

Lemma hierarchy_final_inv (host : HostSession) :
  NoDup (nodes host) -> parents_first host ->
  exists st,
    hierarchy_loop host 0 (mkHier [[]] ∅) (nodes host) = Ok st
    /\ hier_inv host (nodes host) st (hierarchy_by_insertion host).
Proof.
  intros Hnodup Hfirst.
  apply (hierarchy_loop_insert host (nodes host) [] (mkHier [[]] ∅) (HT [])).
  - apply hier_inv_start.
  - exact Hnodup.
  - apply parents_first_from_index. intros i n Hn Htruthy.
    destruct (Hfirst i n Hn Htruthy) as (j & Hj & Hlook).
    exists j. split; [cbn; lia | exact Hlook].
Qed.

Lemma get_rv_hierarchy_of_loop (host : HostSession) seen st t :
  hierarchy_loop host 0 (mkHier [[]] ∅) (nodes host) = Ok st ->
  hier_inv host seen st t ->
  get_rv_hierarchy host = Ok t.
Proof.
  intros Hloop Hinv.
  unfold get_rv_hierarchy, get_rv_hierarchy_store, alloc_dict.
  cbn [length app]. rewrite Hloop. now rewrite (inv_value _ _ _ _ Hinv).
Qed.

(** X5. [get_rv_hierarchy] returns exactly when the enumeration lists
    every parent group before its members, names repeated or not; the only
    exception it raises is [KeyError]. *)
Theorem get_rv_hierarchy_returns_iff_parents_first (host : HostSession) :
  (parents_first host <-> exists t, get_rv_hierarchy host = Ok t)
  /\ (forall e, get_rv_hierarchy host = Raise e -> exists g, e = KeyError g).
Proof.
  destruct (parents_first_from host [] (nodes host)) eqn:Hfirst.
  - destruct (hierarchy_loop_index_ok host (nodes host) [] (mkHier [[]] ∅)
                (index_ok_start) Hfirst) as [st Hloop].
    assert (Hok : exists t, get_rv_hierarchy host = Ok t).
    { unfold get_rv_hierarchy, get_rv_hierarchy_store, alloc_dict.
      cbn [length app]. rewrite Hloop. eauto. }
    split.
    + split; [intros _; exact Hok|].
      intros _. now apply parents_first_from_true.
    + intros e He. destruct Hok as [t Ht]. congruence.
  - destruct (hierarchy_loop_violation host (nodes host) [] (mkHier [[]] ∅)
                (index_ok_start) Hfirst)
      as (before & m & after & st & _ & _ & _ & _ & Hloop).
    assert (Hraise : get_rv_hierarchy host
               = Raise (KeyError (default EmptyString (nodeGroup host m)))).
    { unfold get_rv_hierarchy, get_rv_hierarchy_store, alloc_dict.
      cbn [length app]. now rewrite Hloop. }
    split.
    + split.
      * intros Hp. rewrite (parents_first_from_index host [] (nodes host))
          in Hfirst; [discriminate|].
        intros i n Hn Htruthy. destruct (Hp i n Hn Htruthy) as (j & Hj & Hl).
        exists j. split; [cbn; lia | exact Hl].
      * intros [t Ht]. congruence.
    + intros e He. rewrite Hraise in He. injection He as <-. eauto.
Qed.

(** X6. For distinct names listed parents first, the dictionaries built
    through shared references denote the hierarchy obtained by inserting
    the nodes one by one into a value: sharing [all_nodes_map]'s
    references with the result changes nothing. *)
Theorem get_rv_hierarchy_is_insertion (host : HostSession) :
  NoDup (nodes host) -> parents_first host ->
  get_rv_hierarchy host = Ok (hierarchy_by_insertion host).
Proof.
  intros Hnodup Hfirst.
  destruct (hierarchy_final_inv host Hnodup Hfirst) as (st & Hloop & Hinv).
  exact (get_rv_hierarchy_of_loop host _ st _ Hloop Hinv).
Qed.

Lemma get_rv_hierarchy_is_insertion_witness :
  get_rv_hierarchy demo_host = Ok (hierarchy_by_insertion demo_host).
Proof.
  apply (get_rv_hierarchy_is_insertion demo_host).
  - apply (bool_decide_unpack _). vm_compute. exact I.
  - apply parents_first_from_true. vm_compute. reflexivity.
Defined.

(** X7. For distinct names listed parents first, the result keeps the
    order of the enumeration: the keys of the root are the nodes without a
    group, in order, and the keys stored under a group are the nodes that
    declare it, in order. *)
Theorem get_rv_hierarchy_keeps_enumeration_order (host : HostSession) :
  NoDup (nodes host) -> parents_first host ->
  exists t,
    get_rv_hierarchy host = Ok t
    /\ keys t
       = filter (fun n => PyStr.truthy (nodeGroup host n) = false)
                (nodes host)
    /\ forall g,
         children_names g t
         = filter (fun n => member_of host g n = true) (nodes host).
Proof.
  intros Hnodup Hfirst.
  destruct (hierarchy_final_inv host Hnodup Hfirst) as (st & Hloop & Hinv).
  exists (hierarchy_by_insertion host). split; [|split].
  - exact (get_rv_hierarchy_of_loop host _ st _ Hloop Hinv).
  - unfold hierarchy_by_insertion. now rewrite keys_fold_insert.
  - intros g. unfold hierarchy_by_insertion.
    rewrite (children_names_loop host (nodes host) [] (mkHier [[]] ∅) (HT []) g);
      [reflexivity | apply hier_inv_start | exact Hnodup |].
    apply parents_first_from_index. intros i n Hn Htruthy.
    destruct (Hfirst i n Hn Htruthy) as (j & Hj & Hlook).
    exists j. split; [cbn; lia | exact Hlook].
Qed.

Lemma get_rv_hierarchy_keeps_enumeration_order_witness :
  exists t,
    get_rv_hierarchy demo_host = Ok t
    /\ keys t
       = filter (fun n => PyStr.truthy (nodeGroup demo_host n) = false)
                (nodes demo_host)
    /\ forall g,
         children_names g t
         = filter (fun n => member_of demo_host g n = true) (nodes demo_host).
Proof.
  apply (get_rv_hierarchy_keeps_enumeration_order demo_host).
  - apply (bool_decide_unpack _). vm_compute. exact I.
  - apply parents_first_from_true. vm_compute. reflexivity.
Defined.

Lemma emitted_app {W A} (m : M W A) (s : St W) (tr : list Effect) :
  snd (snd (m s)) = snd s ++ tr -> emitted m s = tr.
Proof. intros H. unfold emitted. rewrite H. apply drop_app_length. Qed.

Lemma log_grows_emitted {W A} (m : M W A) (s : St W) :
  log_grows m -> snd (snd (m s)) = snd s ++ emitted m s.
Proof.
  intros Hm. destruct (Hm s) as [tr Htr]. now rewrite (emitted_app m s tr Htr).
Qed.

Section EmitsOnly.
Context {W : Type} (lib : NodeGraphQt W) (host : HostSession).
Local Open Scope py_scope.
Local Abbreviation emits_only := (@emits_only W _).

Lemma emits_only_ret {A} ok (a : A) : emits_only ok (ret a).
Proof. intros s. exists []. split; [cbn; now rewrite app_nil_r | constructor]. Qed.

Lemma emits_only_raise {A} ok e : emits_only ok (@raise W A e).
Proof. intros s. exists []. split; [cbn; now rewrite app_nil_r | constructor]. Qed.

Lemma emits_only_lift {A} ok (r : Result A) : emits_only ok (lift_result r).
Proof. intros s. exists []. split; [cbn; now rewrite app_nil_r | constructor]. Qed.

Lemma emits_only_ask {A} ok (q : W -> A) : emits_only ok (ask q).
Proof. intros s. exists []. split; [cbn; now rewrite app_nil_r | constructor]. Qed.

Lemma emits_only_tell (ok : Effect -> Prop) e f :
  ok e -> emits_only ok (tell e f).
Proof. intros He s. exists [e]. split; [reflexivity | now repeat constructor]. Qed.

Lemma emits_only_call {A} (ok : Effect -> Prop) (f : W -> A * W) e :
  (forall a, ok (e a)) -> emits_only ok (call f e).
Proof.
  intros He s. unfold call. destruct (f (fst s)) as [a w]. exists [e a].
  split; [reflexivity | now repeat constructor].
Qed.

Lemma emits_only_bind {A B} ok (m : M W A) (k : A -> M W B) :
  emits_only ok m -> (forall a, emits_only ok (k a)) ->
  emits_only ok (bind m k).
Proof.
  intros Hm Hk s. unfold bind. destruct (Hm s) as (tr1 & H1 & Hok1).
  destruct (m s) as [[a|e] s1]; cbn [fst snd] in *.
  - destruct (Hk a s1) as (tr2 & H2 & Hok2). exists (tr1 ++ tr2).
    split; [now rewrite H2, H1, app_assoc | now apply Forall_app].
  - exists tr1. now split.
Qed.

Lemma emits_only_for_each {A} ok (xs : list A) (body : A -> M W unit) :
  (forall x, emits_only ok (body x)) -> emits_only ok (for_each xs body).
Proof.
  intros Hbody. induction xs as [|x xs IH]; cbn [for_each].
  - apply emits_only_ret.
  - apply emits_only_bind; [apply Hbody | intros _; exact IH].
Qed.

Ltac emits_tac :=
  repeat first
    [ apply emits_only_ret | apply emits_only_raise | apply emits_only_lift
    | apply emits_only_ask
    | apply emits_only_tell; exact I
    | apply emits_only_call; intros ?; exact I
    | apply emits_only_bind; [|intros ?]
    | apply emits_only_for_each; intros ?
    | match goal with
      | |- emits_only _ (if ?b then _ else _) => destruct b
      | |- emits_only _ (match ?x with _ => _ end) => destruct x
      end ].

Lemma wire_node_emits graph node node_name :
  emits_only (wiring_effect node)
             (wire_node lib host graph node node_name).
Proof.
  unfold wire_node. destruct (nodeConnections host node_name) as [i o].
  unfold wire_upstream, wire_downstream, connect_input, print.
  repeat first
    [ apply emits_only_ret | apply emits_only_ask
    | apply emits_only_tell; first [exact I | now left | now right]
    | apply emits_only_bind; [|intros ?]
    | apply emits_only_for_each; intros ?
    | match goal with
      | |- emits_only _ (if ?b then _ else _) => destruct b
      | |- emits_only _ (match ?x with _ => _ end) => destruct x
      end ].
Qed.

Lemma build_graph_emits nodes graph :
  emits_only not_clear_session (_build_graph lib host nodes graph).
Proof.
  revert graph. induction nodes as [es IH] using HierarchyTree_ind.
  intros graph. cbn [_build_graph].
  apply emits_only_bind; [|intros _; apply emits_only_bind; [|intros _]].
  - unfold creation_pass, create_entry, print. emits_tac.
  - induction IH as [|e es He _ IHes]; cbn [wiring_pass].
    + apply emits_only_ret.
    + apply emits_only_bind; [|intros _; exact IHes].
      unfold wire_entry. apply emits_only_bind; [apply emits_only_ask|].
      intros [node|]; [|apply emits_only_ret].
      apply emits_only_bind; [|intros _].
      * unfold wire_node, wire_upstream, wire_downstream, connect_input,
          print. emits_tac.
      * destruct (dict_truthy (snd e)); [|apply emits_only_ret].
        apply emits_only_bind; [|intros sub; apply emits_only_bind;
                                  [apply He | intros _]].
        -- unfold node_expand, RVGroupNode_expand, group_attribute. emits_tac.
        -- unfold node_collapse, group_attribute. emits_tac.
  - unfold layout. emits_tac.
Qed.

End EmitsOnly.

(** X13. The wiring of one entry adds to the log only prints and
    connections, and every connection is at a port of the entry's own
    visual node: from its output 0 or into its input 0. *)
Theorem wire_node_touches_its_node_only {W} (lib : NodeGraphQt W)
    (host : HostSession) graph node node_name (s : St W) :
  Forall (wiring_effect node)
         (emitted (wire_node lib host graph node node_name) s).
Proof.
  destruct (wire_node_emits lib host graph node node_name s)
    as (tr & Hlog & Hall).
  now rewrite (emitted_app _ _ _ Hlog).
Qed.

(** X17. [build_graph] clears the session once, before anything else:
    the first effect it adds is [clear_session] of its graph, and no other
    [clear_session] follows, whether the build returns or raises. *)
Theorem build_graph_clears_session_once {W} (lib : NodeGraphQt W)
    (host : HostSession) graph (s : St W) :
  exists rest,
    emitted (build_graph lib host graph) s = EClearSession graph :: rest
    /\ forall g, EClearSession g ∉ rest.
Proof.
  unfold build_graph.
  destruct (get_rv_hierarchy host) as [t|e] eqn:Hh.
  - destruct (build_graph_emits lib host t graph
                (clear_session lib graph (fst s),
                 snd s ++ [EClearSession graph])) as (tr & Hlog & Hall).
    exists tr. split.
    + apply emitted_app. unfold bind, tell, lift_result. cbn [fst snd].
      cbn [fst snd] in Hlog. rewrite Hlog. now rewrite <- app_assoc.
    + intros g Hin. rewrite Forall_forall in Hall.
      exact (Hall _ Hin).
  - exists []. split; [|intros g Hin; inversion Hin].
    apply emitted_app. reflexivity.
Qed.

Lemma expand_net_app node tr1 tr2 :
  expand_net node (tr1 ++ tr2)
  = (expand_net node tr1 + expand_net node tr2)%Z.
Proof.
  unfold expand_net. induction tr1 as [|e tr1 IH]; cbn [app fold_right];
    [reflexivity|].
  rewrite IH. lia.
Qed.

Section Nets.
Context {W : Type} (lib : NodeGraphQt W) (host : HostSession).
Local Open Scope py_scope.
Local Abbreviation nets := (@nets W _).

Lemma nets_ret {A} node (a : A) : nets node 0 (ret a).
Proof.
  intros s a' s' H. inversion H; subst. exists [].
  split; [now rewrite app_nil_r | reflexivity].
Qed.

Lemma nets_raise {A} node k e : nets node k (@raise W A e).
Proof. intros s a s' H. discriminate. Qed.

Lemma nets_ask {A} node (q : W -> A) : nets node 0 (ask q).
Proof.
  intros s a' s' H. inversion H; subst. exists [].
  split; [now rewrite app_nil_r | reflexivity].
Qed.

Lemma nets_tell node e f : nets node (expand_step node e) (tell e f).
Proof.
  intros s a' s' H. unfold tell in H. inversion H; subst. exists [e].
  split; [reflexivity|]. cbn. lia.
Qed.

Lemma nets_tell0 node e f :
  expand_step node e = 0%Z -> nets node 0 (tell e f).
Proof. intros <-. apply nets_tell. Qed.

Lemma nets_call {A} node k (f : W -> A * W) e :
  (forall a, expand_step node (e a) = k) -> nets node k (call f e).
Proof.
  intros He s a' s' H. unfold call in H. destruct (f (fst s)) as [a w].
  inversion H; subst. eexists [_]. split; [reflexivity|].
  cbn. rewrite He. lia.
Qed.

Lemma nets_bind {A B} node k1 k2 (m : M W A) (k : A -> M W B) :
  nets node k1 m -> (forall a, nets node k2 (k a)) ->
  nets node (k1 + k2) (bind m k).
Proof.
  intros Hm Hk s b s' H. unfold bind in H.
  destruct (m s) as [[a|e] s1] eqn:Hms; [|discriminate].
  destruct (Hm s a s1 Hms) as (tr1 & H1 & Hn1).
  destruct (Hk a s1 b s' H) as (tr2 & H2 & Hn2).
  exists (tr1 ++ tr2). split; [now rewrite H2, H1, app_assoc|].
  rewrite expand_net_app. lia.
Qed.

Lemma nets_seq0 {A B} node (m : M W A) (k : A -> M W B) :
  nets node 0 m -> (forall a, nets node 0 (k a)) -> nets node 0 (bind m k).
Proof. intros Hm Hk. exact (nets_bind node 0 0 m k Hm Hk). Qed.

Lemma nets_for_each {A} node (xs : list A) (body : A -> M W unit) :
  (forall x, nets node 0 (body x)) -> nets node 0 (for_each xs body).
Proof.
  intros Hbody. induction xs as [|x xs IH]; cbn [for_each].
  - apply nets_ret.
  - apply nets_seq0; [apply Hbody | intros _; exact IH].
Qed.

Ltac nets0_tac :=
  repeat first
    [ apply nets_ret | apply nets_raise | apply nets_ask
    | apply nets_tell0; reflexivity
    | apply nets_call; intros ?; reflexivity
    | apply nets_seq0; [|intros ?]
    | apply nets_for_each; intros ?
    | match goal with
      | |- nets _ _ (if ?b then _ else _) => destruct b
      | |- nets _ _ (match ?x with _ => _ end) => destruct x
      end ].

Lemma nets_group_attribute node n attribute :
  nets node 0 (group_attribute lib n attribute).
Proof. unfold group_attribute. nets0_tac. Qed.

Lemma nets_node_expand node n :
  nets node (if Nat.eqb n node then 1 else 0) (node_expand lib n).
Proof.
  unfold node_expand, RVGroupNode_expand.
  apply (nets_bind node 0 _); [apply nets_group_attribute | intros _].
  apply (nets_bind node 0 _); [apply nets_ask | intros was].
  replace (if Nat.eqb n node then 1%Z else 0%Z)
    with ((if Nat.eqb n node then 1 else 0) + 0)%Z by lia.
  apply nets_bind; [apply nets_call; intros sub; reflexivity | intros sub].
  nets0_tac.
Qed.

Lemma nets_node_collapse node n :
  nets node (if Nat.eqb n node then -1 else 0) (node_collapse lib n).
Proof.
  unfold node_collapse.
  apply (nets_bind node 0 _); [apply nets_group_attribute | intros _].
  apply (nets_tell node (ECollapse n)).
Qed.

Lemma nets_wire_node node graph n node_name :
  nets node 0 (wire_node lib host graph n node_name).
Proof.
  unfold wire_node. destruct (nodeConnections host node_name) as [i o].
  unfold wire_upstream, wire_downstream, connect_input, print. nets0_tac.
Qed.

Lemma nets_build_graph node nodes graph :
  nets node 0 (_build_graph lib host nodes graph).
Proof.
  revert graph. induction nodes as [es IH] using HierarchyTree_ind.
  intros graph. cbn [_build_graph].
  apply nets_seq0; [|intros _; apply nets_seq0; [|intros _]].
  - unfold creation_pass, create_entry, print. nets0_tac.
  - induction IH as [|e es He _ IHes]; cbn [wiring_pass].
    + apply nets_ret.
    + apply nets_seq0; [|intros _; exact IHes].
      unfold wire_entry. apply nets_seq0; [apply nets_ask|].
      intros [n|]; [|apply nets_ret].
      apply nets_seq0; [apply nets_wire_node | intros _].
      destruct (dict_truthy (snd e)); [|apply nets_ret].
      replace 0%Z with ((if Nat.eqb n node then 1 else 0)
                        + (0 + (if Nat.eqb n node then -1 else 0)))%Z
        by (destruct (Nat.eqb n node); lia).
      apply nets_bind; [apply nets_node_expand | intros sub].
      apply nets_bind; [apply He | intros _]. apply nets_node_collapse.
  - unfold layout. nets0_tac.
Qed.

End Nets.

(** X15. When [_build_graph] returns, every node has been collapsed as
    many times as it has been expanded by the build. *)
Theorem build_graph_collapses_what_it_expands {W} (lib : NodeGraphQt W)
    (host : HostSession) nodes graph (s s' : St W) (node : NodeRef) :
  _build_graph lib host nodes graph s = (Ok tt, s') ->
  expand_net node (emitted (_build_graph lib host nodes graph) s) = 0%Z.
Proof.
  intros Hrun.
  destruct (nets_build_graph lib host node nodes graph s tt s' Hrun)
    as (tr & Hlog & Hnet).
  rewrite (emitted_app _ s tr); [exact Hnet|]. now rewrite Hrun.
Qed.

(** X16. When [_build_graph] returns, the last effects it added are the
    layout of its graph, the fit to the selection and the clearing of the
    selection, in this order. *)
Theorem build_graph_ends_with_layout {W} (lib : NodeGraphQt W)
    (host : HostSession) nodes graph (s s' : St W) :
  _build_graph lib host nodes graph s = (Ok tt, s') ->
  exists before,
    emitted (_build_graph lib host nodes graph) s
    = before ++ [EAutoLayout graph; EFitToSelection graph;
                 EClearSelection graph].
Proof.
  destruct nodes as [es]. cbn [_build_graph]. intros Hrun.
  pose proof (log_grows_creation_pass lib host graph es s) as Hc.
  unfold bind in Hrun |- *. unfold emitted. unfold bind.
  destruct (creation_pass lib host graph es s) as [[[]|e] s1];
    [|discriminate].
  assert (Hw : log_grows (wiring_pass lib host (_build_graph lib host)
                            graph es)).
  { apply log_grows_wiring_pass. apply Forall_forall. intros e _ g.
    apply log_grows_build_graph. }
  specialize (Hw s1).
  destruct (wiring_pass lib host (_build_graph lib host) graph es s1)
    as [[[]|e] s2]; [|discriminate].
  cbn [fst snd] in *. destruct Hc as [tr1 Htr1]. destruct Hw as [tr2 Htr2].
  exists (tr1 ++ tr2). unfold layout, bind, tell. cbn [fst snd].
  rewrite Htr2, Htr1. rewrite <- !app_assoc. rewrite drop_app_length.
  reflexivity.
Qed.

Section ExpandTwice.
Context {W : Type} (lib : NodeGraphQt W).
Local Open Scope py_scope.

(** X10. [RVGroupNode.expand] hooks up the sub-graph's signals and menu
    command on the expansion of a collapsed node only: when the library
    leaves the node expanded, expanding it again calls the library's
    [expand] and nothing else. *)
Theorem expand_hooks_up_once (self : NodeRef) (s : St W) :
  is_expanded lib self (fst s) = false ->
  is_expanded lib self (fst (snd (RVGroupNode_expand lib self s))) = true ->
  exists sub1 sub2,
    emitted (RVGroupNode_expand lib self ;;; RVGroupNode_expand lib self) s
    = [EExpand self sub1;
       EConnectSignal sub1 "node_selection_changed"
                      "_on_node_selection_changed";
       EConnectSignal sub1 "node_double_clicked" "_on_node_double_clicked";
       EAddCommand sub1 "nodes" "Expand Group" "expand_group_node";
       EExpand self sub2]
    /\ fst ((RVGroupNode_expand lib self ;;; RVGroupNode_expand lib self) s)
       = Ok sub2.
Proof.
  destruct s as [w tr]. cbn [fst]. intros Hcol Hexp.
  destruct (GroupNode_expand lib self w) as [sub1 w1] eqn:Hx1.
  assert (Hfirst : RVGroupNode_expand lib self (w, tr) =
    (Ok sub1,
     (add_command lib sub1 "nodes" "Expand Group" "expand_group_node"
        (connect_signal lib sub1 "node_double_clicked"
           "_on_node_double_clicked"
           (connect_signal lib sub1 "node_selection_changed"
              "_on_node_selection_changed" w1)),
      tr ++ [EExpand self sub1;
             EConnectSignal sub1 "node_selection_changed"
                            "_on_node_selection_changed";
             EConnectSignal sub1 "node_double_clicked"
                            "_on_node_double_clicked";
             EAddCommand sub1 "nodes" "Expand Group" "expand_group_node"]))).
  { unfold RVGroupNode_expand. run_monad. rewrite Hcol, Hx1. cbn.
    rewrite <- !app_assoc. reflexivity. }
  rewrite Hfirst in Hexp. cbn [fst snd] in Hexp.
  match type of Hexp with
  | is_expanded _ _ ?w' = _ => set (w2 := w') in *
  end.
  destruct (GroupNode_expand lib self w2) as [sub2 w3] eqn:Hx2.
  exists sub1, sub2.
  assert (Hboth :
    (RVGroupNode_expand lib self ;;; RVGroupNode_expand lib self) (w, tr)
    = (Ok sub2,
       (w3, tr ++ [EExpand self sub1;
             EConnectSignal sub1 "node_selection_changed"
                            "_on_node_selection_changed";
             EConnectSignal sub1 "node_double_clicked"
                            "_on_node_double_clicked";
             EAddCommand sub1 "nodes" "Expand Group" "expand_group_node";
             EExpand self sub2]))).
  { rewrite (bind_ok _ _ _ _ _ Hfirst).
    unfold RVGroupNode_expand. run_monad. rewrite Hexp, Hx2. cbn.
    rewrite <- !app_assoc. reflexivity. }
  split; [|now rewrite Hboth].
  apply emitted_app. now rewrite Hboth.
Qed.

End ExpandTwice.

Lemma expand_hooks_up_once_witness :
  exists sub1 sub2,
    emitted (bind (RVGroupNode_expand SimpleCanvas.plain 0)
                  (fun _ => RVGroupNode_expand SimpleCanvas.plain 0))
            collapsed_canvas
    = [EExpand 0 sub1;
       EConnectSignal sub1 "node_selection_changed"
                      "_on_node_selection_changed";
       EConnectSignal sub1 "node_double_clicked" "_on_node_double_clicked";
       EAddCommand sub1 "nodes" "Expand Group" "expand_group_node";
       EExpand 0 sub2]
    /\ fst (bind (RVGroupNode_expand SimpleCanvas.plain 0)
                 (fun _ => RVGroupNode_expand SimpleCanvas.plain 0)
                 collapsed_canvas)
       = Ok sub2.
Proof.
  apply (expand_hooks_up_once SimpleCanvas.plain 0 collapsed_canvas).
  - vm_compute. reflexivity.
  - vm_compute. reflexivity.
Defined.

Section NotAGroup.
Context {W : Type} (lib : NodeGraphQt W) (host : HostSession).
Local Open Scope py_scope.

(** X14. When the wiring of an entry with children has returned and the
    visual node found for the entry is not a group node, [node.expand()]
    raises [AttributeError]: the pass ends there, in the state the wiring
    left; the children are not built and the entries after it are not
    wired. *)
Theorem expand_of_non_group_aborts_pass recur graph pre e rest
    (s0 s s1 : St W) node :
  wiring_pass lib host recur graph pre s0 = (Ok tt, s) ->
  get_node_by_name lib graph (_stripped_name host (fst e)) (fst s)
    = Some node ->
  dict_truthy (snd e) = true ->
  wire_node lib host graph node (fst e) s = (Ok tt, s1) ->
  isinstance_RVGroupNode lib node (fst s1) = false ->
  wiring_pass lib host recur graph (pre ++ e :: rest) s0
  = (Raise (AttributeError "expand"), s1).
Proof.
  intros Hpre Hnode Hkids Hwire Hcls.
  rewrite wiring_pass_app. rewrite (bind_ok _ _ _ _ _ Hpre).
  cbn [wiring_pass]. unfold wire_entry.
  unfold bind at 1 2. unfold ask at 1. cbn [fst snd]. rewrite Hnode, Hkids.
  rewrite (bind_ok _ _ _ _ _ Hwire).
  unfold node_expand, group_attribute. run_monad. now rewrite Hcls.
Qed.

End NotAGroup.

Lemma expand_of_non_group_aborts_pass_witness :
  wiring_pass SimpleCanvas.plain sibling_host
    (_build_graph SimpleCanvas.plain sibling_host) (SubGraph 0)
    sibling_children sibling_created
  = (Raise (AttributeError "expand"),
     snd (wire_node SimpleCanvas.plain sibling_host (SubGraph 0) 3
            "grp.a"
            (snd (wire_node SimpleCanvas.plain sibling_host (SubGraph 0) 3
                    "grp_a" sibling_created)))).
Proof.
  apply (expand_of_non_group_aborts_pass SimpleCanvas.plain sibling_host
           (_build_graph SimpleCanvas.plain sibling_host) (SubGraph 0)
           [("grp_a", HT [])] ("grp.a", HT [("grp.a_x", HT [])]) []
           sibling_created
           (snd (wire_node SimpleCanvas.plain sibling_host (SubGraph 0) 3
                   "grp_a" sibling_created))
           _ 3).
  - vm_compute. reflexivity.
  - vm_compute. reflexivity.
  - reflexivity.
  - vm_compute. reflexivity.
  - vm_compute. reflexivity.
Defined.

Section Creation.
Context {W : Type} (lib : NodeGraphQt W) (host : HostSession).
Local Open Scope py_scope.




End Creation.

Section LogBlind.
Context {W : Type} (lib : NodeGraphQt W) (host : HostSession).
Local Open Scope py_scope.
Local Abbreviation log_blind := (@log_blind W _).

Lemma log_blind_ret {A} (a : A) : log_blind (ret a).
Proof. intros w tr. cbn. now rewrite app_nil_r. Qed.

Lemma log_blind_raise {A} e : log_blind (@raise W A e).
Proof. intros w tr. cbn. now rewrite app_nil_r. Qed.

Lemma log_blind_lift {A} (r : Result A) : log_blind (lift_result r).
Proof. intros w tr. cbn. now rewrite app_nil_r. Qed.

Lemma log_blind_ask {A} (q : W -> A) : log_blind (ask q).
Proof. intros w tr. cbn. now rewrite app_nil_r. Qed.

Lemma log_blind_tell e f : log_blind (tell e f).
Proof. intros w tr. reflexivity. Qed.

Lemma log_blind_call {A} (f : W -> A * W) e : log_blind (call f e).
Proof. intros w tr. unfold call. cbn. destruct (f w). reflexivity. Qed.

Lemma log_blind_bind {A B} (m : M W A) (k : A -> M W B) :
  log_blind m -> (forall a, log_blind (k a)) -> log_blind (bind m k).
Proof.
  intros Hm Hk w tr. unfold bind. rewrite (Hm w tr).
  destruct (m (w, [])) as [[a|e] [w1 d1]]; cbn [fst snd].
  - rewrite (Hk a w1 (tr ++ d1)). rewrite (Hk a w1 d1).
    destruct (k a (w1, [])) as [r2 [w2 d2]]. cbn [fst snd].
    now rewrite app_assoc.
  - reflexivity.
Qed.

Lemma log_blind_for_each {A} (xs : list A) (body : A -> M W unit) :
  (forall x, log_blind (body x)) -> log_blind (for_each xs body).
Proof.
  intros Hbody. induction xs as [|x xs IH]; cbn [for_each].
  - apply log_blind_ret.
  - apply log_blind_bind; [apply Hbody | intros _; exact IH].
Qed.

Ltac blind_tac :=
  repeat first
    [ apply log_blind_ret | apply log_blind_raise | apply log_blind_lift
    | apply log_blind_ask | apply log_blind_tell | apply log_blind_call
    | apply log_blind_bind; [|intros ?]
    | apply log_blind_for_each; intros ?
    | match goal with
      | |- log_blind (if ?b then _ else _) => destruct b
      | |- log_blind (match ?x with _ => _ end) => destruct x
      end ].

Lemma log_blind_build_graph nodes graph :
  log_blind (_build_graph lib host nodes graph).
Proof.
  revert graph. induction nodes as [es IH] using HierarchyTree_ind.
  intros graph. cbn [_build_graph].
  apply log_blind_bind; [|intros _; apply log_blind_bind; [|intros _]].
  - unfold creation_pass, create_entry, print. blind_tac.
  - induction IH as [|e es He _ IHes]; cbn [wiring_pass].
    + apply log_blind_ret.
    + apply log_blind_bind; [|intros _; exact IHes].
      unfold wire_entry. apply log_blind_bind; [apply log_blind_ask|].
      intros [node|]; [|apply log_blind_ret].
      apply log_blind_bind; [|intros _].
      * unfold wire_node, wire_upstream, wire_downstream, connect_input,
          print. blind_tac.
      * destruct (dict_truthy (snd e)); [|apply log_blind_ret].
        apply log_blind_bind; [|intros sub; apply log_blind_bind;
                                 [apply He | intros _]].
        -- unfold node_expand, RVGroupNode_expand, group_attribute. blind_tac.
        -- unfold node_collapse, group_attribute. blind_tac.
  - unfold layout. blind_tac.
Qed.

Lemma log_blind_dialog_build graph : log_blind (build_graph lib host graph).
Proof.
  unfold build_graph.
  apply log_blind_bind; [apply log_blind_tell | intros _].
  apply log_blind_bind; [apply log_blind_lift | intros t].
  apply log_blind_build_graph.
Qed.

End LogBlind.

Lemma build_graph_collapses_what_it_expands_witness :
  expand_net 0
    (emitted (_build_graph SimpleCanvas.plain demo_host
                (HT [("defaultSequence", HT sequence_children)])
                (NodeGraph 0))
             (SimpleCanvas.empty, [])) = 0%Z.
Proof.
  eapply (build_graph_collapses_what_it_expands SimpleCanvas.plain demo_host
            (HT [("defaultSequence", HT sequence_children)]) (NodeGraph 0)
            (SimpleCanvas.empty, []) _ 0).
  vm_compute. reflexivity.
Defined.

Lemma build_graph_ends_with_layout_witness :
  exists before,
    emitted (_build_graph SimpleCanvas.plain demo_host (HT sequence_children)
               (SubGraph 0))
            sequence_canvas
    = before ++ [EAutoLayout (SubGraph 0); EFitToSelection (SubGraph 0);
                 EClearSelection (SubGraph 0)].
Proof.
  eapply (build_graph_ends_with_layout SimpleCanvas.plain demo_host
            (HT sequence_children) (SubGraph 0) sequence_canvas _).
  vm_compute. reflexivity.
Defined.

Section Upstream.
Context {W : Type} (lib : NodeGraphQt W) (host : HostSession).
Local Open Scope py_scope.

Lemma connect_input_run graph node_name in_port x (s : St W) :
  exists w e,
    connect_input lib host graph node_name in_port x s
    = (Ok tt, (w, snd s ++ [e]))
    /\ input_outcome node_name in_port x e.
Proof.
  destruct s as [w0 tr]. unfold connect_input. run_monad.
  destruct (get_node_by_name lib graph (_stripped_name host x) w0)
    as [n|]; cbn.
  - eexists _, _. split; [reflexivity|]. left. eauto.
  - eexists _, _. split; [reflexivity|]. now right.
Qed.

Lemma for_each_connect_run graph node_name in_port inputs :
  forall s : St W,
  exists w tr,
    for_each inputs (connect_input lib host graph node_name in_port) s
    = (Ok tt, (w, snd s ++ tr))
    /\ Forall2 (input_outcome node_name in_port) inputs tr.
Proof.
  induction inputs as [|x inputs IH]; intros s; cbn [for_each].
  - exists (fst s), []. rewrite app_nil_r. destruct s. split; [reflexivity|].
    constructor.
  - destruct (connect_input_run graph node_name in_port x s)
      as (w1 & e & Hrun & He).
    rewrite (bind_ok _ _ _ _ _ Hrun).
    destruct (IH (w1, snd s ++ [e])) as (w2 & tr & Hrest & Hall).
    exists w2, (e :: tr). rewrite Hrest. cbn [snd].
    rewrite <- app_assoc. split; [reflexivity|]. now constructor.
Qed.

(** X12. For a node with upstream neighbours, the wiring adds one line
    and then exactly one effect per neighbour, in order: a connection into
    the node's input 0, or the warning that names the neighbour. *)
Theorem wire_upstream_one_effect_per_input graph node node_name
    (first : string) (more : list string) (s : St W) :
  exists tr,
    emitted (wire_upstream lib host graph node node_name (first :: more)) s
    = EPrint (MsgConnectingInputs node_name (first :: more)) :: tr
    /\ Forall2 (input_outcome node_name (InputPort node 0))
               (first :: more) tr.
Proof.
  unfold wire_upstream. cbn [list_truthy].
  destruct (for_each_connect_run graph node_name (InputPort node 0)
              (first :: more)
              (fst s, snd s ++ [EPrint (MsgConnectingInputs node_name
                                          (first :: more))]))
    as (w & tr & Hrun & Hall).
  exists tr. split; [|exact Hall].
  apply emitted_app. unfold bind, print, tell. cbn [fst snd] in *.
  rewrite Hrun. cbn [snd]. now rewrite <- app_assoc.
Qed.

End Upstream.

Section DialogFacts.
Context {W : Type} (qt : QtToolkit W) (lib : NodeGraphQt W).

Lemma new_dialog_run (a : AppState W) :
  exists graph w tr,
    new_RVNodeGraphDialog qt lib a
    = (length (app_dialogs a),
       mkApp w (app_log a ++ tr) (app_dialogs a ++ [mkDialog graph]))
    /\ List.filter is_window_call tr = []
    /\ List.filter is_construction tr
       = [OnWindow (length (app_dialogs a)) (WNewNodeGraph graph)].
Proof.
  unfold new_RVNodeGraphDialog, _init_graph, on_window, on_canvas.
  cbn [app_widgets app_log app_dialogs].
  destruct (new_NodeGraph qt _) as [graph w]. cbn [app_widgets app_log app_dialogs].
  exists graph. eexists. eexists. split.
  - rewrite <- !app_assoc. cbn [app]. reflexivity.
  - split; reflexivity.
Qed.

Lemma dialog_build_run host graph (a : AppState W) :
  exists w tr,
    dialog_build_graph lib host graph a
    = (fst (build_graph lib host graph (app_widgets a, [])),
       mkApp w (app_log a ++ map OnCanvas tr) (app_dialogs a)).
Proof.
  unfold dialog_build_graph.
  destruct (build_graph lib host graph (app_widgets a, [])) as [r [w tr]].
  exists w, tr. reflexivity.
Qed.

Lemma filter_on_canvas (p : AppEffect -> bool) (tr : list Effect) :
  (forall e, p (OnCanvas e) = false) ->
  List.filter p (map OnCanvas tr) = [].
Proof.
  intros Hp. induction tr as [|e tr IH]; [reflexivity|].
  cbn. now rewrite Hp.
Qed.

(** The action on a mode that has its dialog. *)
Lemma show_with_dialog host self (a : AppState W) dialog d :
  graph_dialog self = Some dialog ->
  app_dialogs a !! dialog = Some d ->
  exists w tr,
    show_graph_window qt lib host self a
    = match fst (build_graph lib host (_node_graph d) (app_widgets a, [])) with
      | Ok _ =>
          (Ok tt,
           (self,
            mkApp w (app_log a ++ map OnCanvas tr
                       ++ [OnWindow dialog WShow; OnWindow dialog WRaise;
                           OnWindow dialog WActivateWindow])
                  (app_dialogs a)))
      | Raise e =>
          (Raise e,
           (self, mkApp w (app_log a ++ map OnCanvas tr) (app_dialogs a)))
      end.
Proof.
  intros Hself Hd. unfold show_graph_window. rewrite Hself.
  cbn beta iota zeta. rewrite Hself, Hd.
  destruct (dialog_build_run host (_node_graph d) a) as (w & tr & ->).
  destruct (fst (build_graph lib host (_node_graph d) (app_widgets a, [])))
    as [[]|e].
  - eexists. exists tr. unfold on_window. cbn [app_widgets app_log app_dialogs].
    rewrite <- !app_assoc. reflexivity.
  - exists w, tr. reflexivity.
Qed.

Lemma build_graph_raises host graph (s : St W) e :
  get_rv_hierarchy host = Raise e ->
  fst (build_graph lib host graph s) = Raise e.
Proof. intros H. unfold build_graph. run_monad. now rewrite H. Qed.

(** X19. [show_graph_window] leaves the mode with a dialog; it shows,
    raises and activates the window, in this order and last, when the
    build returned, and makes none of these calls when the build raised;
    a [get_rv_hierarchy] that raises makes it raise the same exception. *)
Theorem show_graph_window_shows_after_build host self (a : AppState W) :
  dialog_ok self a ->
  exists self' a' tr,
    snd (show_graph_window qt lib host self a) = (self', a')
    /\ app_log a' = app_log a ++ tr
    /\ is_Some (graph_dialog self')
    /\ match fst (show_graph_window qt lib host self a) with
       | Ok _ =>
           exists dialog before,
             graph_dialog self' = Some dialog
             /\ tr = before ++ [OnWindow dialog WShow; OnWindow dialog WRaise;
                                OnWindow dialog WActivateWindow]
             /\ List.filter is_window_call before = []
       | Raise _ => List.filter is_window_call tr = []
       end
    /\ (forall e, get_rv_hierarchy host = Raise e ->
                  fst (show_graph_window qt lib host self a) = Raise e).
Proof.
  intros Hok.
  assert (Hcanvas : forall e, is_window_call (OnCanvas e) = false)
    by reflexivity.
  destruct (graph_dialog self) as [dialog|] eqn:Hself.
  - destruct (Hok dialog Hself) as [d Hd].
    destruct (show_with_dialog host self a dialog d Hself Hd)
      as (w & tr & Hrun).
    pose proof (build_graph_raises host (_node_graph d) (app_widgets a, []))
      as Hraise.
    destruct (fst (build_graph lib host (_node_graph d) (app_widgets a, [])))
      as [[]|e] eqn:Hb; rewrite Hrun; cbn [fst snd].
    + eexists _, _, _. split; [reflexivity|]. split; [reflexivity|].
      split; [rewrite Hself; eauto|]. split.
      * exists dialog, (map OnCanvas tr). split; [exact Hself|].
        split; [reflexivity|]. now apply filter_on_canvas.
      * intros e He. specialize (Hraise e He). discriminate.
    + eexists _, _, _. split; [reflexivity|]. split; [reflexivity|].
      split; [rewrite Hself; eauto|]. split.
      * now apply filter_on_canvas.
      * intros e' He. specialize (Hraise e' He). congruence.
  - destruct (new_dialog_run a) as (graph & w & tr0 & Hnew & Hnowin & _).
    set (dialog := length (app_dialogs a)) in *.
    set (a1 := mkApp w (app_log a ++ tr0) (app_dialogs a ++ [mkDialog graph])).
    assert (Hd : app_dialogs a1 !! dialog = Some (mkDialog graph)).
    { cbn [a1 app_dialogs]. rewrite lookup_app_r by (subst dialog; lia).
      subst dialog. now rewrite Nat.sub_diag. }
    destruct (show_with_dialog host (mkMode (mode_name self) (Some dialog))
                a1 dialog (mkDialog graph) eq_refl Hd) as (w2 & tr & Hrun).
    assert (Hsplit : show_graph_window qt lib host self a
                     = show_graph_window qt lib host
                         (mkMode (mode_name self) (Some dialog)) a1).
    { unfold show_graph_window at 1. rewrite Hself, Hnew.
      unfold show_graph_window. reflexivity. }
    rewrite Hsplit, Hrun.
    pose proof (build_graph_raises host graph (app_widgets a1, []))
      as Hraise.
    cbn [_node_graph] in *.
    destruct (fst (build_graph lib host graph (app_widgets a1, [])))
      as [[]|e] eqn:Hb; cbn [fst snd].
    + eexists _, _, _. split; [reflexivity|].
      split; [cbn [a1 app_log]; rewrite <- app_assoc; reflexivity|].
      split; [cbn; eauto|]. split.
      * exists dialog, (tr0 ++ map OnCanvas tr). split; [reflexivity|].
        split; [now rewrite <- app_assoc|].
        rewrite List.filter_app, Hnowin. now apply filter_on_canvas.
      * intros e He. specialize (Hraise e He). discriminate.
    + eexists _, _, _. split; [reflexivity|].
      split; [cbn [a1 app_log]; rewrite <- app_assoc; reflexivity|].
      split; [cbn; eauto|]. split.
      * rewrite List.filter_app, Hnowin. now apply filter_on_canvas.
      * intros e' He. specialize (Hraise e' He). congruence.
Qed.

(** The dialogs and the mode after one invocation. *)
Lemma show_keeps_dialog host self (a : AppState W) dialog :
  graph_dialog self = Some dialog ->
  is_Some (app_dialogs a !! dialog) ->
  graph_dialog (fst (snd (show_graph_window qt lib host self a)))
    = Some dialog
  /\ app_dialogs (snd (snd (show_graph_window qt lib host self a)))
     = app_dialogs a.
Proof.
  intros Hself [d Hd].
  destruct (show_with_dialog host self a dialog d Hself Hd) as (w & tr & ->).
  destruct (fst (build_graph lib host (_node_graph d) (app_widgets a, [])))
    as [[]|e]; cbn [fst snd app_dialogs]; now split.
Qed.

Lemma show_makes_dialog host self (a : AppState W) :
  graph_dialog self = None ->
  graph_dialog (fst (snd (show_graph_window qt lib host self a)))
    = Some (length (app_dialogs a))
  /\ length (app_dialogs (snd (snd (show_graph_window qt lib host self a))))
     = S (length (app_dialogs a)).
Proof.
  intros Hself.
  destruct (new_dialog_run a) as (graph & w & tr0 & Hnew & _ & _).
  set (dialog := length (app_dialogs a)) in *.
  set (a1 := mkApp w (app_log a ++ tr0) (app_dialogs a ++ [mkDialog graph])).
  assert (Hsplit : show_graph_window qt lib host self a
                   = show_graph_window qt lib host
                       (mkMode (mode_name self) (Some dialog)) a1).
  { unfold show_graph_window at 1. rewrite Hself, Hnew.
    unfold show_graph_window. reflexivity. }
  rewrite Hsplit.
  destruct (show_keeps_dialog host (mkMode (mode_name self) (Some dialog))
              a1 dialog eq_refl) as [Hm Hd].
  { cbn [a1 app_dialogs]. rewrite lookup_app_r by (subst dialog; lia).
    subst dialog. rewrite Nat.sub_diag. eauto. }
  split; [exact Hm|]. rewrite Hd. cbn [a1 app_dialogs].
  rewrite length_app. cbn. subst dialog. lia.
Qed.

(** X20. A mode without a dialog constructs one at the first invocation
    of [show_graph_window] and uses it for every later one, whether the
    builds return or raise: one dialog object exists after any number of
    invocations. *)
Theorem show_graph_window_constructs_one_dialog
    (first : HostSession) (later : list HostSession)
    (self : RVNodeGraphVizQt) (a : AppState W) :
  graph_dialog self = None ->
  graph_dialog (fst (show_graph_windows qt lib (first :: later) self a))
    = Some (length (app_dialogs a))
  /\ length (app_dialogs (snd (show_graph_windows qt lib (first :: later)
                                 self a)))
     = S (length (app_dialogs a)).
Proof.
  intros Hself. cbn [show_graph_windows].
  destruct (show_makes_dialog first self a Hself) as [Hm Hd].
  destruct (show_graph_window qt lib first self a) as [r [self1 a1]].
  cbn [fst snd] in Hm, Hd.
  assert (Hvalid : is_Some (app_dialogs a1 !! length (app_dialogs a))).
  { apply lookup_lt_is_Some_2. lia. }
  rewrite <- Hd. clear Hd Hself r.
  revert self1 a1 Hm Hvalid.
  generalize (length (app_dialogs a)) as dialog.
  induction later as [|host later IH]; intros dialog self1 a1 Hm Hvalid.
  - cbn. now split.
  - cbn [show_graph_windows].
    destruct (show_keeps_dialog host self1 a1 dialog Hm Hvalid) as [Hm' Hd'].
    destruct (show_graph_window qt lib host self1 a1) as [r [self2 a2]].
    cbn [fst snd] in Hm', Hd'.
    destruct (IH dialog self2 a2 Hm') as [H1 H2].
    { now rewrite Hd'. }
    split; [exact H1|]. now rewrite H2, Hd'.
Qed.

End DialogFacts.

Lemma show_graph_window_shows_after_build_witness :
  fst (show_graph_window simple_qt SimpleCanvas.plain unordered_host
         fresh_mode fresh_app)
  = Raise (KeyError "stack").
Proof.
  destruct (show_graph_window_shows_after_build simple_qt SimpleCanvas.plain
              unordered_host fresh_mode fresh_app)
    as (self' & a' & tr & _ & _ & _ & _ & Hraise).
  - intros dialog Hd. discriminate.
  - apply Hraise. reflexivity.
Defined.

Lemma show_graph_window_constructs_one_dialog_witness :
  graph_dialog (fst (show_graph_windows simple_qt SimpleCanvas.plain
                       [demo_host; unordered_host; demo_host]
                       fresh_mode fresh_app))
  = Some 0
  /\ length (app_dialogs (snd (show_graph_windows simple_qt SimpleCanvas.plain
                                 [demo_host; unordered_host; demo_host]
                                 fresh_mode fresh_app)))
     = 1.
Proof.
  apply (show_graph_window_constructs_one_dialog simple_qt SimpleCanvas.plain
           demo_host [unordered_host; demo_host] fresh_mode fresh_app).
  reflexivity.
Defined.
